(** * BWT (Binary Web Token): a shallow embedding of github.com/karalef/bwt

    The Go package is embedded function by function.  Go values keep their
    shape: [[]byte] is a list of bytes, [string] a Rocq string (Go strings are
    byte sequences, and so are Rocq's), [error] an optional error value
    ([None] is Go's [nil]), a call that may panic returns a [result].
    What the package imports and does not define itself (encoding/base64,
    msgpack, crypto/hmac, crypto/ed25519, strings.ToUpper, time.Now) is an
    interface with laws, instantiated by executable stand-ins at the end. *)

From Stdlib Require Import ZArith NArith Lia Bool List Ascii String.
From Stdlib Require Import Strings.Byte.
From stdpp Require Import base option list gmap strings.

Set Warnings "-register-all".
Local Open Scope string_scope.
Local Open Scope Z_scope.
Local Open Scope list_scope.

(** * Part I: the embedding *)

(** ** Go runtime: byte slices, panics, errors *)

(** A value of type [[]byte]; the nil slice and the empty slice are both []. *)
Abbreviation bytes := (list Byte.byte).

(** The outcome of a call: it returns a value or panics. *)
Inductive result (A : Type) : Type :=
| Ret (a : A)
| Panic (msg : string).
Arguments Ret {A} a.
Arguments Panic {A} msg.

Definition bind {A B} (r : result A) (k : A -> result B) : result B :=
  match r with
  | Ret a => k a
  | Panic msg => Panic msg
  end.

Notation "'let!' x ':=' r 'in' k" := (bind r (fun x => k))
  (at level 10, x pattern, r at level 100, k at level 200).

(** The package-level error variables (parser.go 128-133, unnamed/part_000
    47-52, hmac.go 77, validator.go 204-212).  Each is one object; [errors.Is]
    finds it by identity. *)
Inductive sentinel : Type :=
| ErrTokenMalformed
| ErrTokenUnverifiable
| ErrTokenTagInvalid
| ErrTokenInvalidClaims
| ErrInvalidKeyType
| ErrInvalidKey
| ErrTagInvalid
| ErrWrongTag
| ErrHashUnavailable
| ErrTokenRequiredClaimMissing
| ErrTokenInvalidAudience
| ErrTokenExpired
| ErrTokenUsedBeforeIssued
| ErrTokenInvalidIssuer
| ErrTokenInvalidSubject
| ErrTokenNotValidYet.

#[global] Instance sentinel_eq_dec : EqDecision sentinel.
Proof. solve_decision. Defined.

(** A non-nil Go [error]: a package variable, a fresh [errors.New], the
    wrapper built by [errors.Join], or an error of an imported package. *)
Inductive error : Type :=
| Sentinel (s : sentinel)
| errors_New (msg : string)
| joinError (errs : list error)
| Foreign (pkg msg : string).

(** [errors.Join]: nil values are discarded, and the result is nil when
    nothing is left. *)
Definition errors_Join (errs : list (option error)) : option error :=
  match omap id errs with
  | [] => None
  | es => Some (joinError es)
  end.

(** [errors.Is] against a package variable: the error itself, or any error a
    join wraps, depth first. *)
Fixpoint errors_Is (err : error) (target : sentinel) : bool :=
  match err with
  | Sentinel s => bool_decide (s = target)
  | joinError es => existsb (fun e => errors_Is e target) es
  | errors_New _ | Foreign _ _ => false
  end.

Definition is_err (err : option error) (target : sentinel) : bool :=
  match err with
  | Some e => errors_Is e target
  | None => false
  end.

(** ** package strings *)

(** [strings.Split(s, sep)] for a one-byte separator: n separators give n+1
    pieces, and the empty string gives one empty piece. *)
Fixpoint Split (s : string) (sep : ascii) : list string :=
  match s with
  | EmptyString => [EmptyString]
  | String c rest =>
      if Ascii.eqb c sep then EmptyString :: Split rest sep
      else match Split rest sep with
           | p :: ps => String c p :: ps
           | [] => [String c EmptyString]
           end
  end.

(** [strings.Cut(s, sep)] for a one-byte separator: the text before and after
    the first separator, or [(s, "", false)] when there is none. *)
Fixpoint Cut (s : string) (sep : ascii) : string * string * bool :=
  match s with
  | EmptyString => (EmptyString, EmptyString, false)
  | String c rest =>
      if Ascii.eqb c sep then (EmptyString, rest, true)
      else let '(before, after, found) := Cut rest sep in
           (String c before, after, found)
  end.

(** The bytes of a string occur in it. *)
Fixpoint occurs (c : ascii) (s : string) : bool :=
  match s with
  | EmptyString => false
  | String d rest => Ascii.eqb d c || occurs c rest
  end.

(** [strings.Join] for a one-byte separator; it undoes [Split]. *)
Fixpoint Join (parts : list string) (sep : ascii) : string :=
  match parts with
  | [] => ""
  | [p] => p
  | p :: rest => (p ++ String sep (Join rest sep))%string
  end.

(** ** package crypto/subtle *)

(** [subtle.ConstantTimeCompare]: 0 at once when the lengths differ, else the
    OR of the XORs of all byte pairs is compared with 0. *)
Fixpoint xor_fold (x y : bytes) (v : N) : N :=
  match x, y with
  | a :: x', b :: y' => xor_fold x' y' (N.lor v (N.lxor (Byte.to_N a) (Byte.to_N b)))
  | _, _ => v
  end.

Definition ConstantTimeCompare (x y : bytes) : Z :=
  if negb (Nat.eqb (length x) (length y)) then 0
  else if N.eqb (xor_fold x y 0%N) 0%N then 1 else 0.

(** ** package time *)

(** An instant, in nanoseconds counted from the zero [time.Time] (January 1,
    year 1, UTC), and a [time.Duration], an int64 count of nanoseconds.  The
    far ends of the representable range of instants, where [Add] saturates,
    are not modelled. *)
Definition Time := Z.
Definition Duration := Z.

Definition IsZero (t : Time) : bool := t =? 0.
Definition Before (t u : Time) : bool := t <? u.
Definition Add (t : Time) (d : Duration) : Time := t + d.

Definition minInt64 : Z := - 2 ^ 63.
Definition maxInt64 : Z := 2 ^ 63 - 1.

(** Two's-complement int64 arithmetic wraps. *)
Definition wrap64 (z : Z) : Z := (z + 2 ^ 63) mod 2 ^ 64 - 2 ^ 63.

(** Unary minus on a Duration. *)
Definition neg64 (d : Duration) : Duration := wrap64 (- d).

(** The system clock: the reading [time.Now] gives when it is consulted for
    the n-th time. *)
Class SystemClock := { time_Now : nat -> Time }.

(** ** claims.go: the Claims interface *)

Definition ClaimsKeyKeyID := "kid".
Definition ClaimsKeyExpirationTime := "exp".
Definition ClaimsKeyIssuedAt := "iat".
Definition ClaimsKeyNotBefore := "nbf".
Definition ClaimsKeyIssuer := "iss".
Definition ClaimsKeySubject := "sub".
Definition ClaimsKeyAudience := "aud".

(** The seven accessors of [Claims], for claims values whose accessors
    return.  [AsClaimsValidator] is the type assertion
    [claims.(ClaimsValidator)] followed by the call of [Validate]: [None]
    when the dynamic type has no such method, else what the method
    returns. *)
Class Claims (C : Type) := {
  GetKeyID : C -> string;
  GetExpirationTime : C -> Time;
  GetIssuedAt : C -> Time;
  GetNotBefore : C -> Time;
  GetIssuer : C -> string;
  GetSubject : C -> string;
  GetAudience : C -> list string;
  AsClaimsValidator : C -> option (option error)
}.

(** RegisteredClaims (claims.go 31-47); it has no Validate method. *)
Record RegisteredClaims := {
  KeyID : string;
  ExpirationTime : Time;
  IssuedAt : Time;
  NotBefore : Time;
  Issuer : string;
  Subject : string;
  Audience : list string
}.

#[global] Instance RegisteredClaims_Claims : Claims RegisteredClaims := {|
  GetKeyID c := KeyID c;
  GetExpirationTime c := ExpirationTime c;
  GetIssuedAt c := IssuedAt c;
  GetNotBefore c := NotBefore c;
  GetIssuer c := Issuer c;
  GetSubject c := Subject c;
  GetAudience c := Audience c;
  AsClaimsValidator _ := None
|}.

(** ** validator.go *)

(** A [func() time.Time]: its reading when the clock behind it is consulted
    for the n-th time. *)
Definition TimeFunc := nat -> Time.

(** The body of a [ValidatorFunc]: what it returns, through the calls it makes
    on the [*Validator] it is handed ([Now], [PTime], [FTime]). *)
Inductive Rule (A : Type) : Type :=
| Return (a : A)
| CallNow (k : Time -> Rule A)
| CallPTime (k : Time -> Rule A)
| CallFTime (k : Time -> Rule A).
Arguments Return {A} a.
Arguments CallNow {A} k.
Arguments CallPTime {A} k.
Arguments CallFTime {A} k.

Section Validator.
Context {C : Type} `{Claims C} `{SystemClock}.

(** [type ValidatorFunc func(v *Validator, c Claims) error] *)
Definition ValidatorFunc := C -> Rule (option error).

Record Validator := {
  leeway : Duration;
  timeFunc : option TimeFunc;
  now : Time;
  validators : list ValidatorFunc
}.

(** [Now] (validator.go 26-35).  The second component of the state counts how
    often the time function has been consulted. *)
Definition Now (v : Validator) (n : nat) : Time * Validator * nat :=
  if negb (IsZero (now v)) then (now v, v, n)
  else
    let f := match timeFunc v with
             | None => time_Now
             | Some f => f
             end in
    let t := f n in
    (t, {| leeway := leeway v; timeFunc := Some f; now := t;
           validators := validators v |}, S n).

(** [PTime]: the current time minus the leeway. *)
Definition PTime (v : Validator) (n : nat) : Time * Validator * nat :=
  let '(t, v', n') := Now v n in (Add t (neg64 (leeway v)), v', n').

(** [FTime]: the current time plus the leeway. *)
Definition FTime (v : Validator) (n : nat) : Time * Validator * nat :=
  let '(t, v', n') := Now v n in (Add t (leeway v), v', n').

(** Running a rule body against the validator. *)
Fixpoint run {A} (r : Rule A) (v : Validator) (n : nat) : A * Validator * nat :=
  match r with
  | Return a => (a, v, n)
  | CallNow k => let '(t, v', n') := Now v n in run (k t) v' n'
  | CallPTime k => let '(t, v', n') := PTime v n in run (k t) v' n'
  | CallFTime k => let '(t, v', n') := FTime v n in run (k t) v' n'
  end.

Definition ValidatorOption := Validator -> Validator.

Definition WithLeeway (d : Duration) : ValidatorOption :=
  fun v => {| leeway := d; timeFunc := timeFunc v; now := now v;
              validators := validators v |}.

Definition WithTimeFunc (f : TimeFunc) : ValidatorOption :=
  fun v => {| leeway := leeway v; timeFunc := Some f; now := now v;
              validators := validators v |}.

Definition WithValidator (f : ValidatorFunc) : ValidatorOption :=
  fun v => {| leeway := leeway v; timeFunc := timeFunc v; now := now v;
              validators := validators v ++ [f] |}.

(** [NewValidator]: the options applied in order to the zero Validator. *)
Definition NewValidator (opts : list ValidatorOption) : Validator :=
  fold_left (fun v apply => apply v) opts
    {| leeway := 0; timeFunc := None; now := 0; validators := [] |}.

(** The loop of [Validate] (validator.go 85-89): every rule is called, and
    the non-nil errors are appended. *)
Fixpoint run_validators (fs : list ValidatorFunc) (claims : C)
    (errs : list error) (v : Validator) (n : nat)
  : list error * Validator * nat :=
  match fs with
  | [] => (errs, v, n)
  | validate :: fs' =>
      let '(err, v', n') := run (validate claims) v n in
      let errs' := match err with
                   | Some e => errs ++ [e]
                   | None => errs
                   end in
      run_validators fs' claims errs' v' n'
  end.

(** [Validate] (validator.go 83-98). *)
Definition Validate (v : Validator) (claims : C) (n : nat)
  : option error * Validator * nat :=
  let '(errs, v', n') := run_validators (validators v) claims [] v n in
  let errs' := match AsClaimsValidator claims with
               | Some (Some e) => errs ++ [e]
               | _ => errs
               end in
  (errors_Join (map Some errs'), v', n').

Definition errorIfFalse (value : bool) (err : sentinel) : option error :=
  if value then None else Some (Sentinel err).

Definition errorIfRequired (required : bool) (claim : string) : option error :=
  if required
  then errors_Join [Some (errors_New (claim ++ " claim is required")%string);
                    Some (Sentinel ErrTokenRequiredClaimMissing)]
  else None.

(** The closures the With... options register (validator.go 102-188). *)
Definition verifyExpiration (required : bool) : ValidatorFunc :=
  fun claims =>
    let exp := GetExpirationTime claims in
    if IsZero exp then Return (errorIfRequired required ClaimsKeyExpirationTime)
    else CallPTime (fun pt => Return (errorIfFalse (Before pt exp) ErrTokenExpired)).

Definition verifyIssuedAt (required : bool) : ValidatorFunc :=
  fun claims =>
    let iat := GetIssuedAt claims in
    if IsZero iat then Return (errorIfRequired required ClaimsKeyIssuedAt)
    else CallFTime (fun ft =>
           Return (errorIfFalse (negb (Before ft iat)) ErrTokenUsedBeforeIssued)).

Definition verifyNotBefore (required : bool) : ValidatorFunc :=
  fun claims =>
    let nbf := GetNotBefore claims in
    if IsZero nbf then Return (errorIfRequired required ClaimsKeyNotBefore)
    else CallFTime (fun ft =>
           Return (errorIfFalse (negb (Before ft nbf)) ErrTokenNotValidYet)).

(** The loop of the audience rule (validator.go 147-154). *)
Fixpoint audience_loop (aud : list string) (audience : string)
    (result nonEmpty : bool) : bool * bool :=
  match aud with
  | [] => (result, nonEmpty)
  | a :: rest =>
      let result' :=
        if negb (ConstantTimeCompare (list_byte_of_string a)
                                     (list_byte_of_string audience) =? 0)
        then true else result in
      audience_loop rest audience result' (nonEmpty || negb (String.eqb a ""))
  end.

Definition verifyAudience (required : bool) (audience : string) : ValidatorFunc :=
  fun claims =>
    let aud := GetAudience claims in
    if Nat.eqb (length aud) 0 then Return (errorIfRequired required ClaimsKeyAudience)
    else
      let '(result, nonEmpty) := audience_loop aud audience false false in
      if negb nonEmpty then Return (errorIfRequired required ClaimsKeyAudience)
      else Return (errorIfFalse result ErrTokenInvalidAudience).

Definition verifyIssuer (required : bool) (issuer : string) : ValidatorFunc :=
  fun claims =>
    let iss := GetIssuer claims in
    if String.eqb iss "" then Return (errorIfRequired required ClaimsKeyIssuer)
    else Return (errorIfFalse (String.eqb iss issuer) ErrTokenInvalidIssuer).

Definition verifySubject (required : bool) (subject : string) : ValidatorFunc :=
  fun claims =>
    let sub := GetSubject claims in
    if String.eqb sub "" then Return (errorIfRequired required ClaimsKeySubject)
    else Return (errorIfFalse (String.eqb sub subject) ErrTokenInvalidSubject).

Definition WithVerifyExpiration (required : bool) : ValidatorOption :=
  WithValidator (verifyExpiration required).
Definition WithVerifyIssuedAt (required : bool) : ValidatorOption :=
  WithValidator (verifyIssuedAt required).
Definition WithVerifyNotBefore (required : bool) : ValidatorOption :=
  WithValidator (verifyNotBefore required).
Definition WithRequireAudience (required : bool) (audience : string) : ValidatorOption :=
  WithValidator (verifyAudience required audience).
Definition WithVerifyIssuer (required : bool) (issuer : string) : ValidatorOption :=
  WithValidator (verifyIssuer required issuer).
Definition WithVerifySubject (required : bool) (subject : string) : ValidatorOption :=
  WithValidator (verifySubject required subject).

End Validator.

Arguments Validator C : clear implicits.
Arguments ValidatorFunc C : clear implicits.
Arguments ValidatorOption C : clear implicits.

(** ** claims.go: ClaimsMap *)

(** A Go value held in an [any]: what a [map[string]any] stores.  [anyNil] is
    the nil interface, which has no dynamic type. *)
Inductive any : Type :=
| anyNil
| anyString (s : string)
| anyTime (t : Time)
| anyStrings (l : list string)
| anyInt64 (z : Z)
| anyBool (b : bool)
| anyBytes (b : bytes)
| anySlice (l : list any).

(** The types [MapValue] is instantiated at. *)
Inductive claimType : Type := T_string | T_Time | T_strings.

Definition typeOf (V : claimType) : Type :=
  match V with
  | T_string => string
  | T_Time => Time
  | T_strings => list string
  end.

(** The zero value of [V]. *)
Definition empty_of (V : claimType) : typeOf V :=
  match V with
  | T_string => ""
  | T_Time => 0
  | T_strings => []
  end.

(** Whether the dynamic type of [v] is [V]. *)
Definition has_type (V : claimType) (v : any) : bool :=
  match V, v with
  | T_string, anyString _ => true
  | T_Time, anyTime _ => true
  | T_strings, anyStrings _ => true
  | _, _ => false
  end.

(** The single-value type assertion [v.(V)]. *)
Definition assert_type (V : claimType) (v : any) : result (typeOf V) :=
  match V, v with
  | T_string, anyString s => Ret s
  | T_Time, anyTime t => Ret t
  | T_strings, anyStrings l => Ret l
  | _, _ => Panic "interface conversion"
  end.

(** [type ClaimsMap map[string]any]; the nil map reads like the empty one. *)
Abbreviation ClaimsMap := (gmap string any).

(** [MapValue] (claims.go 65-71). *)
Definition MapValue (V : claimType) (m : ClaimsMap) (key : string) : result (typeOf V) :=
  match m !! key with
  | None => Ret (empty_of V)
  | Some v => assert_type V v
  end.

Definition ClaimsMap_Time (c : ClaimsMap) (key : string) : result Time :=
  MapValue T_Time c key.
Definition ClaimsMap_Str (c : ClaimsMap) (key : string) : result string :=
  MapValue T_string c key.
Definition ClaimsMap_Strs (c : ClaimsMap) (key : string) : result (list string) :=
  MapValue T_strings c key.

Definition ClaimsMap_GetKeyID (c : ClaimsMap) := ClaimsMap_Str c ClaimsKeyKeyID.
Definition ClaimsMap_GetExpirationTime (c : ClaimsMap) := ClaimsMap_Time c ClaimsKeyExpirationTime.
Definition ClaimsMap_GetIssuedAt (c : ClaimsMap) := ClaimsMap_Time c ClaimsKeyIssuedAt.
Definition ClaimsMap_GetNotBefore (c : ClaimsMap) := ClaimsMap_Time c ClaimsKeyNotBefore.
Definition ClaimsMap_GetIssuer (c : ClaimsMap) := ClaimsMap_Str c ClaimsKeyIssuer.
Definition ClaimsMap_GetSubject (c : ClaimsMap) := ClaimsMap_Str c ClaimsKeySubject.
Definition ClaimsMap_GetAudience (c : ClaimsMap) := ClaimsMap_Strs c ClaimsKeyAudience.

(** The seven accessors, each with the well-known key it reads and the type
    it asserts. *)
Inductive accessor : Type :=
| AccKeyID | AccExpirationTime | AccIssuedAt | AccNotBefore
| AccIssuer | AccSubject | AccAudience.

Definition accessor_key (a : accessor) : string :=
  match a with
  | AccKeyID => ClaimsKeyKeyID
  | AccExpirationTime => ClaimsKeyExpirationTime
  | AccIssuedAt => ClaimsKeyIssuedAt
  | AccNotBefore => ClaimsKeyNotBefore
  | AccIssuer => ClaimsKeyIssuer
  | AccSubject => ClaimsKeySubject
  | AccAudience => ClaimsKeyAudience
  end.

Definition accessor_type (a : accessor) : claimType :=
  match a with
  | AccKeyID | AccIssuer | AccSubject => T_string
  | AccExpirationTime | AccIssuedAt | AccNotBefore => T_Time
  | AccAudience => T_strings
  end.

Definition call_accessor (a : accessor) (c : ClaimsMap) : result (typeOf (accessor_type a)) :=
  match a with
  | AccKeyID => ClaimsMap_GetKeyID c
  | AccExpirationTime => ClaimsMap_GetExpirationTime c
  | AccIssuedAt => ClaimsMap_GetIssuedAt c
  | AccNotBefore => ClaimsMap_GetNotBefore c
  | AccIssuer => ClaimsMap_GetIssuer c
  | AccSubject => ClaimsMap_GetSubject c
  | AccAudience => ClaimsMap_GetAudience c
  end.

(** A value of type [V] stored in an [any], as a map literal or an assignment
    [c[key] = x] stores it. *)
Definition to_any (V : claimType) : typeOf V -> any :=
  match V with
  | T_string => anyString
  | T_Time => anyTime
  | T_strings => anyStrings
  end.

(** ** Keys and algorithms *)

(** A key as the algorithms receive it: a value of interface type, told
    apart by its dynamic type.  [ed25519.PublicKey] and [ed25519.PrivateKey]
    are named types and so differ from [[]byte]. *)
Inductive Key : Type :=
| KeyNil
| KeyBytes (b : bytes)
| KeyEd25519Public (b : bytes)
| KeyEd25519Private (b : bytes)
| KeyOther (dynamicType : string).

(** The types [KeyAs] is instantiated at. *)
Inductive keyType : Type := T_bytes | T_ed25519_PublicKey | T_ed25519_PrivateKey.

(** [KeyAs] (unnamed/part_000 39-45): the two-value type assertion. *)
Definition KeyAs (T : keyType) (key : Key) : bytes * option error :=
  match T, key with
  | T_bytes, KeyBytes v => (v, None)
  | T_ed25519_PublicKey, KeyEd25519Public v => (v, None)
  | T_ed25519_PrivateKey, KeyEd25519Private v => (v, None)
  | _, _ => ([], Some (Sentinel ErrInvalidKeyType))
  end.

(** The [crypto.Hash] values hmac.go uses, and [Hash.Size]. *)
Inductive crypto_Hash : Type := SHA3_256 | SHA3_384 | SHA3_512.

Definition Hash_Size (h : crypto_Hash) : nat :=
  match h with
  | SHA3_256 => 32
  | SHA3_384 => 48
  | SHA3_512 => 64
  end%nat.

Definition ed25519_PublicKeySize : nat := 32.
Definition ed25519_PrivateKeySize : nat := 64.
Definition ed25519_SignatureSize : nat := 64.

(** The cryptographic primitives, used as black boxes: whether a hash is
    linked in, the HMAC of a message under a key, Ed25519 signing and
    verification, and which public key belongs to which private key. *)
Class Crypto := {
  Available : crypto_Hash -> bool;
  HMAC : crypto_Hash -> bytes -> bytes -> bytes;
  ed25519_sign : bytes -> bytes -> bytes;
  ed25519_verify : bytes -> bytes -> bytes -> bool;
  ed25519_pair : bytes -> bytes -> Prop
}.

Class CryptoLaws `{Crypto} : Prop := {
  (* hmac.go imports golang.org/x/crypto/sha3, which registers the hashes *)
  sha3_available : forall h, Available h = true;
  HMAC_size : forall h key msg, length (HMAC h key msg) = Hash_Size h;
  ed25519_pair_sizes : forall priv pub, ed25519_pair priv pub ->
    length priv = ed25519_PrivateKeySize /\ length pub = ed25519_PublicKeySize;
  ed25519_sign_size : forall priv msg,
    length (ed25519_sign priv msg) = ed25519_SignatureSize;
  ed25519_verify_sign : forall priv pub msg, ed25519_pair priv pub ->
    ed25519_verify pub msg (ed25519_sign priv msg) = true
}.

Section Algorithms.
Context `{Crypto}.

(** The state of a [hash.Hash] made by [hmac.New]: the bytes written so far. *)
Record hasher := {
  hasher_hash : crypto_Hash;
  hasher_key : bytes;
  hasher_written : bytes
}.

(** [hmac.New(h.New, key)]; [h.New] panics when the hash is not linked in. *)
Definition hmac_New (h : crypto_Hash) (key : bytes) : result hasher :=
  if Available h
  then Ret {| hasher_hash := h; hasher_key := key; hasher_written := [] |}
  else Panic "crypto: requested hash function is unavailable".

Definition hasher_Write (hs : hasher) (p : bytes) : hasher :=
  {| hasher_hash := hasher_hash hs; hasher_key := hasher_key hs;
     hasher_written := hasher_written hs ++ p |}.

Definition hasher_Sum (hs : hasher) : bytes :=
  HMAC (hasher_hash hs) (hasher_key hs) (hasher_written hs).

(** [hmac.Equal] *)
Definition hmac_Equal (mac1 mac2 : bytes) : bool :=
  ConstantTimeCompare mac1 mac2 =? 1.

(** [ed25519.Verify]; it panics on a public key of the wrong length. *)
Definition ed25519_Verify (publicKey message sig : bytes) : result bool :=
  if negb (Nat.eqb (length publicKey) ed25519_PublicKeySize)
  then Panic "ed25519: bad public key length"
  else Ret (ed25519_verify publicKey message sig).

(** [PrivateKey.Sign] with [crypto.Hash(0)] options: plain Ed25519; it panics
    on a private key of the wrong length. *)
Definition ed25519_PrivateKey_Sign (priv message : bytes) : result (bytes * option error) :=
  if negb (Nat.eqb (length priv) ed25519_PrivateKeySize)
  then Panic "ed25519: bad private key length"
  else Ret (ed25519_sign priv message, None).

(** The [Algorithm] interface (unnamed/part_000 13-17). *)
Record Algorithm := {
  Name : string;
  Auth : string -> bytes -> Key -> result (bytes * option error);
  Verify : string -> bytes -> Key -> bytes -> result (option error)
}.

(** hmac.go *)
Record hmacAlgo := {
  alg : string;
  hash : crypto_Hash
}.

Definition hmacAlgo_Name (h : hmacAlgo) : string := alg h.

Definition hmacAlgo_Verify (h : hmacAlgo) (prefix : string) (body : bytes)
    (key : Key) (tag : bytes) : result (option error) :=
  if negb (Available (hash h)) then Ret (Some (Sentinel ErrHashUnavailable))
  else
    let '(keyBytes, err) := KeyAs T_bytes key in
    match err with
    | Some e => Ret (Some e)
    | None =>
        if negb (Nat.eqb (length tag) (Hash_Size (hash h)))
        then Ret (Some (Sentinel ErrTagInvalid))
        else
          let! hs := hmac_New (hash h) keyBytes in
          let hs := hasher_Write hs (list_byte_of_string prefix) in
          let hs := hasher_Write hs body in
          if negb (hmac_Equal tag (hasher_Sum hs))
          then Ret (Some (Sentinel ErrWrongTag))
          else Ret None
    end.

Definition hmacAlgo_Auth (h : hmacAlgo) (prefix : string) (body : bytes)
    (key : Key) : result (bytes * option error) :=
  if negb (Available (hash h)) then Ret ([], Some (Sentinel ErrHashUnavailable))
  else
    let '(keyBytes, err) := KeyAs T_bytes key in
    match err with
    | Some e => Ret ([], Some e)
    | None =>
        let! hs := hmac_New (hash h) keyBytes in
        let hs := hasher_Write hs (list_byte_of_string prefix) in
        let hs := hasher_Write hs body in
        Ret (hasher_Sum hs, None)
    end.

Definition hmacAlgo_Algorithm (h : hmacAlgo) : Algorithm :=
  {| Name := hmacAlgo_Name h; Auth := hmacAlgo_Auth h; Verify := hmacAlgo_Verify h |}.

Definition HS256 : hmacAlgo := {| alg := "HS256"; hash := SHA3_256 |}.
Definition HS384 : hmacAlgo := {| alg := "HS384"; hash := SHA3_384 |}.
Definition HS512 : hmacAlgo := {| alg := "HS512"; hash := SHA3_512 |}.

(** eddsa.go *)
Definition algoEd25519_Name : string := "EDDSA".

Definition algoEd25519_Verify (prefix : string) (body : bytes) (key : Key)
    (tag : bytes) : result (option error) :=
  let '(ed25519Key, err) := KeyAs T_ed25519_PublicKey key in
  match err with
  | Some e => Ret (Some e)
  | None =>
      if negb (Nat.eqb (length ed25519Key) ed25519_PublicKeySize)
      then Ret (Some (Sentinel ErrInvalidKey))
      else if negb (Nat.eqb (length tag) ed25519_SignatureSize)
      then Ret (Some (Sentinel ErrTagInvalid))
      else
        let! ok := ed25519_Verify ed25519Key (list_byte_of_string prefix ++ body) tag in
        if negb ok then Ret (Some (Sentinel ErrWrongTag)) else Ret None
  end.

Definition algoEd25519_Auth (prefix : string) (body : bytes) (key : Key)
  : result (bytes * option error) :=
  let '(ed25519Key, err) := KeyAs T_ed25519_PrivateKey key in
  match err with
  | Some e => Ret ([], Some e)
  | None =>
      if negb (Nat.eqb (length ed25519Key) ed25519_PrivateKeySize)
      then Ret ([], Some (Sentinel ErrInvalidKey))
      else ed25519_PrivateKey_Sign ed25519Key (list_byte_of_string prefix ++ body)
  end.

Definition EdDSA : Algorithm :=
  {| Name := algoEd25519_Name; Auth := algoEd25519_Auth; Verify := algoEd25519_Verify |}.

End Algorithms.

(** ** The registry (unnamed/part_000 54-80) *)

(** [strings.ToUpper].  On a string of ASCII bytes it maps a-z to A-Z and
    keeps every other byte. *)
Class Strings := { ToUpper : string -> string }.

Definition ascii_upper (c : ascii) : ascii :=
  let n := N_of_ascii c in
  if ((97 <=? n) && (n <=? 122))%N then ascii_of_N (n - 32) else c.

Fixpoint upper_ascii (s : string) : string :=
  match s with
  | EmptyString => EmptyString
  | String c rest => String (ascii_upper c) (upper_ascii rest)
  end.

Fixpoint only_ascii (s : string) : bool :=
  match s with
  | EmptyString => true
  | String c rest => (N_of_ascii c <? 128)%N && only_ascii rest
  end.

Class StringsLaws `{Strings} : Prop := {
  ToUpper_ascii : forall s, only_ascii s = true -> ToUpper s = upper_ascii s
}.

Section Registry.
Context `{Crypto} `{Strings}.

(** The package variable [registeredAlgs], passed explicitly. *)
Definition RegisterAlgorithm (a : Algorithm) (registeredAlgs : gmap string Algorithm)
  : gmap string Algorithm :=
  <[ToUpper (Name a) := a]> registeredAlgs.

Definition GetAlgorithm (registeredAlgs : gmap string Algorithm) (name : string)
  : option Algorithm :=
  registeredAlgs !! ToUpper name.

Definition ListAlgorithms (registeredAlgs : gmap string Algorithm) : list string :=
  (map_to_list registeredAlgs).*1.

(** The registry once the package is initialised: the [init] of eddsa.go,
    then the three registrations of the [init] of hmac.go. *)
Definition builtin_registry : gmap string Algorithm :=
  RegisterAlgorithm (hmacAlgo_Algorithm HS512)
    (RegisterAlgorithm (hmacAlgo_Algorithm HS384)
       (RegisterAlgorithm (hmacAlgo_Algorithm HS256)
          (RegisterAlgorithm EdDSA ∅))).

End Registry.

(** ** The token (unnamed/part_001) and the parser (parser.go) *)

(** [base64.RawURLEncoding]: [EncodeToString] and [DecodeString].  A failed
    decoding still returns the bytes decoded so far. *)
Class Base64 := {
  Encode : bytes -> string;
  Decode : string -> bytes * option error
}.

Class Base64Laws `{Base64} : Prop := {
  Decode_Encode : forall b, Decode (Encode b) = (b, None);
  (* the alphabet is A-Z a-z 0-9 - _ *)
  Encode_no_dot : forall b, occurs "." (Encode b) = false
}.

(** [msgpack.Marshal] of a claims value ([None] for the nil interface), and
    [msgpack.Unmarshal] into the claims value a pointer designates: it returns
    the value the pointer designates afterwards. *)
Class Msgpack (C : Type) := {
  Marshal : option C -> bytes * option error;
  Unmarshal : bytes -> C -> C * option error
}.

(** What the codec is relied on for.  [new_claims] is the value a new pointer
    designates ([new(T)]), and [stored c] is what the wire format keeps of
    [c]: the value itself up to the precision the codec represents.
    Deserialising what [msgpack.Marshal] wrote, into a new value, succeeds and
    gives the stored value. *)
Class Codec (C : Type) := {
  new_claims : C;
  stored : C -> C
}.

Class MsgpackLaws {C : Type} `{Msgpack C} `{Codec C} : Prop := {
  Unmarshal_Marshal : forall (c : C) (body : bytes),
    Marshal (Some c) = (body, None) -> Unmarshal body new_claims = (stored c, None)
}.

(** [sha3.New256]: the digest of the bytes written to the hash. *)
Class Sha3 := { sha3_Sum256 : bytes -> bytes }.

Section KeyID.
Context `{Sha3} `{Base64}.

(** The state of the hash [sha3.New256] returns: the bytes written so far. *)
Definition sha3_New256 : bytes := [].
Definition sha3_Write (h p : bytes) : bytes := h ++ p.
Definition sha3_Sum (h : bytes) : bytes := sha3_Sum256 h.

(** The function [KeyID] (unnamed/part_000 21-26); the name [KeyID] is taken
    by the field of RegisteredClaims. *)
Definition KeyID_ (algName : string) (publicKeyMaterial : bytes) : string :=
  let h := sha3_New256 in
  let h := sha3_Write h (list_byte_of_string algName) in
  let h := sha3_Write h publicKeyMaterial in
  Encode (sha3_Sum h).

End KeyID.

(** [const Type = "BWT"] *)
Definition Type_ : string := "BWT".

Section Token.
Context {C : Type} `{Claims C} `{SystemClock} `{Crypto} `{Strings} `{Base64} `{Msgpack C}.

Record Token := {
  Token_Algorithm : option Algorithm;
  Token_Claims : option C;
  Token_Tag : bytes
}.

Definition New (a : Algorithm) (claims : C) : Token :=
  {| Token_Algorithm := Some a; Token_Claims := Some claims; Token_Tag := [] |}.

(** [Prefix]; calling [Name] on a nil Algorithm panics. *)
Definition Token_Prefix (t : Token) : result string :=
  match Token_Algorithm t with
  | Some a => Ret (Type_ ++ "_" ++ Name a)%string
  | None => Panic "invalid memory address or nil pointer dereference"
  end.

Definition Token_Body (t : Token) : bytes * option error :=
  Marshal (Token_Claims t).

(** [Authenticate] (unnamed/part_001 55-68): the wire string, the error, and the token
    as the call leaves it. *)
Definition Authenticate (t : Token) (key : Key) : result (string * option error * Token) :=
  let '(body, err) := Token_Body t in
  match err with
  | Some e => Ret ("", Some e, t)
  | None =>
      let! prefix := Token_Prefix t in
      match Token_Algorithm t with
      | None => Panic "invalid memory address or nil pointer dereference"
      | Some a =>
          let! (tag, err) := Auth a prefix body key in
          let t' := {| Token_Algorithm := Token_Algorithm t;
                       Token_Claims := Token_Claims t; Token_Tag := tag |} in
          match err with
          | Some e => Ret ("", Some e, t')
          | None =>
              Ret ((prefix ++ "." ++ Encode body ++ "." ++ Encode tag)%string, None, t')
          end
      end
  end.

(** [type Keyfunc func(t *Token) (Key, error)], for callbacks that only read
    the token; [None] is the nil Keyfunc. *)
Definition Keyfunc := Token -> Key * option error.

Definition KeyfuncFrom (key : Key) : Keyfunc := fun _ => (key, None).

Record Raw := {
  Parts : list string;
  Raw_Claims : bytes
}.

(** What [ParseUnverified] returns, and the claims value its [claims]
    argument designates when it returns. *)
Record Unverified := {
  u_token : option Token;
  u_raw : Raw;
  u_err : option error;
  u_claims : C
}.

(** [ParseUnverified] (parser.go 87-116). *)
Definition ParseUnverified (registeredAlgs : gmap string Algorithm)
    (tokenString : string) (claims : C) : Unverified :=
  let parts := Split tokenString "." in
  let raw := {| Parts := parts; Raw_Claims := [] |} in
  if negb (Nat.eqb (length parts) 3)
  then {| u_token := None; u_raw := raw;
          u_err := Some (Sentinel ErrTokenMalformed); u_claims := claims |}
  else
    let '(typ, algName, ok) := Cut (nth 0 parts "") "_" in
    if negb ok || negb (String.eqb typ Type_) || String.eqb algName ""
    then {| u_token := None; u_raw := raw;
            u_err := Some (Sentinel ErrTokenMalformed); u_claims := claims |}
    else
      let token := {| Token_Algorithm := GetAlgorithm registeredAlgs algName;
                      Token_Claims := None; Token_Tag := [] |} in
      match Token_Algorithm token with
      | None => {| u_token := Some token; u_raw := raw;
                   u_err := Some (Sentinel ErrTokenUnverifiable); u_claims := claims |}
      | Some _ =>
          let '(body, err) := Decode (nth 1 parts "") in
          let raw := {| Parts := parts; Raw_Claims := body |} in
          match err with
          | Some e =>
              {| u_token := Some token; u_raw := raw;
                 u_err := errors_Join [Some (Sentinel ErrTokenMalformed); Some e];
                 u_claims := claims |}
          | None =>
              let '(claims', err) := Unmarshal body claims in
              match err with
              | Some e =>
                  {| u_token := Some token; u_raw := raw;
                     u_err := errors_Join [Some (Sentinel ErrTokenMalformed); Some e];
                     u_claims := claims' |}
              | None =>
                  {| u_token := Some {| Token_Algorithm := Token_Algorithm token;
                                        Token_Claims := Some claims';
                                        Token_Tag := [] |};
                     u_raw := raw; u_err := None; u_claims := claims' |}
              end
          end
      end.

Record Parser := {
  validator : option (Validator C)
}.

(** [NewParser]; an argument may be the nil pointer. *)
Definition NewParser (v : list (option (Validator C))) : Parser :=
  match v with
  | v0 :: _ => {| validator := v0 |}
  | [] => {| validator := Some (NewValidator []) |}
  end.

(** What [ParseWithClaims] returns, and what it leaves behind: the claims
    value its argument designates, the parser's validator, and how often the
    time function has been consulted. *)
Record Parsed := {
  p_token : option Token;
  p_err : option error;
  p_claims : C;
  p_parser : Parser;
  p_clock : nat
}.

Definition with_Tag (t : Token) (tag : bytes) : Token :=
  {| Token_Algorithm := Token_Algorithm t; Token_Claims := Token_Claims t;
     Token_Tag := tag |}.

(** [ParseWithClaims] (parser.go 45-78). *)
Definition ParseWithClaims (p : Parser) (registeredAlgs : gmap string Algorithm)
    (tokenString : string) (claims : C) (keyFunc : option Keyfunc) (n : nat)
  : result Parsed :=
  let u := ParseUnverified registeredAlgs tokenString claims in
  let leave token err := {| p_token := token; p_err := err; p_claims := u_claims u;
                            p_parser := p; p_clock := n |} in
  match u_err u with
  | Some e => Ret (leave (u_token u) (Some e))
  | None =>
      match u_token u with
      | None => Panic "invalid memory address or nil pointer dereference"
      | Some token =>
          let '(tag, err) := Decode (nth 2 (Parts (u_raw u)) "") in
          let token := with_Tag token tag in
          match err with
          | Some e =>
              Ret (leave (Some token) (errors_Join [Some (Sentinel ErrTokenMalformed); Some e]))
          | None =>
              match keyFunc with
              | None =>
                  Ret (leave (Some token)
                         (errors_Join [Some (errors_New "no keyfunc was provided");
                                       Some (Sentinel ErrTokenUnverifiable)]))
              | Some keyFunc =>
                  let '(key, err) := keyFunc token in
                  match err with
                  | Some e =>
                      Ret (leave (Some token)
                             (errors_Join [Some (Sentinel ErrTokenUnverifiable); Some e]))
                  | None =>
                      let! prefix := Token_Prefix token in
                      match Token_Algorithm token with
                      | None => Panic "invalid memory address or nil pointer dereference"
                      | Some a =>
                          let! err := Verify a prefix (Raw_Claims (u_raw u)) key
                                        (Token_Tag token) in
                          match err with
                          | Some e =>
                              Ret (leave (Some token)
                                     (errors_Join [Some (Sentinel ErrTokenTagInvalid); Some e]))
                          | None =>
                              match validator p, Token_Claims token with
                              | Some v, Some c =>
                                  let '(err, v', n') := Validate v c n in
                                  let p' := {| validator := Some v' |} in
                                  match err with
                                  | Some e =>
                                      Ret {| p_token := Some token;
                                             p_err := errors_Join
                                               [Some (Sentinel ErrTokenInvalidClaims); Some e];
                                             p_claims := u_claims u;
                                             p_parser := p'; p_clock := n' |}
                                  | None =>
                                      Ret {| p_token := Some token; p_err := None;
                                             p_claims := u_claims u;
                                             p_parser := p'; p_clock := n' |}
                                  end
                              | Some _, None =>
                                  Panic "invalid memory address or nil pointer dereference"
                              | None, _ => Ret (leave (Some token) None)
                              end
                          end
                      end
                  end
              end
          end
      end
  end.

(** [Parser.Parse] decodes into a fresh ClaimsMap, here the claims value
    [fresh]; the package-level [Parse] and [ParseWithClaims] go through
    [NewParser]. *)
Definition Parser_Parse (p : Parser) (registeredAlgs : gmap string Algorithm)
    (tokenString : string) (fresh : C) (keyFunc : option Keyfunc) (n : nat) :=
  ParseWithClaims p registeredAlgs tokenString fresh keyFunc n.

Definition Parse (registeredAlgs : gmap string Algorithm) (tokenString : string)
    (fresh : C) (keyFunc : option Keyfunc) (v : list (option (Validator C))) (n : nat) :=
  Parser_Parse (NewParser v) registeredAlgs tokenString fresh keyFunc n.

End Token.

Arguments Token C : clear implicits.
Arguments Keyfunc C : clear implicits.
Arguments Unverified C : clear implicits.
Arguments Parser C : clear implicits.
Arguments Parsed C : clear implicits.

(** ** Executable stand-ins for the imported packages

    They make the embedding run on concrete tokens.  The base64 stand-in is
    unpadded base64url; the msgpack stand-in writes RegisteredClaims with
    short string fields only, as a fixmap of fixstr entries; the MAC and the
    signature are checksums of the right length, with no cryptographic
    strength. *)

Definition to_byte (n : N) : Byte.byte := default Byte.x00 (Byte.of_N n).

Definition alphabet : list ascii :=
  list_ascii_of_string "ABCDEFGHIJKLMNOPQRSTUVWXYZabcdefghijklmnopqrstuvwxyz0123456789-_".

Definition sextet_char (n : N) : ascii := nth (N.to_nat n) alphabet "A"%char.

Fixpoint index_of (c : ascii) (l : list ascii) (i : N) : option N :=
  match l with
  | [] => None
  | d :: l' => if Ascii.eqb d c then Some i else index_of c l' (N.succ i)
  end.

Definition char_sextet (c : ascii) : option N := index_of c alphabet 0%N.

(** Three bytes give four six-bit groups; one or two bytes left over give two
    or three groups. *)
Fixpoint sextets (b : list N) : list N :=
  match b with
  | b0 :: b1 :: b2 :: rest =>
      (b0 / 4 :: (b0 mod 4) * 16 + b1 / 16 :: (b1 mod 16) * 4 + b2 / 64 :: b2 mod 64
       :: sextets rest)%N
  | [b0; b1] => [b0 / 4; (b0 mod 4) * 16 + b1 / 16; (b1 mod 16) * 4]%N
  | [b0] => [b0 / 4; (b0 mod 4) * 16]%N
  | [] => []
  end.

Fixpoint octets (s : list N) : option (list N) :=
  match s with
  | s0 :: s1 :: s2 :: s3 :: rest =>
      match octets rest with
      | Some r =>
          Some (s0 * 4 + s1 / 16 :: (s1 mod 16) * 16 + s2 / 4 :: (s2 mod 4) * 64 + s3 :: r)%N
      | None => None
      end
  | [s0; s1; s2] => Some [s0 * 4 + s1 / 16; (s1 mod 16) * 16 + s2 / 4]%N
  | [s0; s1] => Some [s0 * 4 + s1 / 16]%N
  | [_] => None
  | [] => Some []
  end.

Definition base64_Encode (b : bytes) : string :=
  string_of_list_ascii (map sextet_char (sextets (map Byte.to_N b))).

Definition base64_corrupt : error := Foreign "base64" "illegal base64 data".

Fixpoint read_sextets (l : list ascii) : option (list N) :=
  match l with
  | [] => Some []
  | c :: l' =>
      match char_sextet c, read_sextets l' with
      | Some x, Some xs => Some (x :: xs)
      | _, _ => None
      end
  end.

Definition base64_Decode (s : string) : bytes * option error :=
  match read_sextets (list_ascii_of_string s) with
  | None => ([], Some base64_corrupt)
  | Some ss =>
      match octets ss with
      | None => ([], Some base64_corrupt)
      | Some os => (map to_byte os, None)
      end
  end.

(** msgpack: a fixstr is the byte 0xa0 + length, then the bytes. *)
Definition fixstr (s : string) : option bytes :=
  let b := list_byte_of_string s in
  if (length b <? 32)%nat then Some (to_byte (160 + N.of_nat (length b)) :: b) else None.

Definition read_fixstr (b : bytes) : option (string * bytes) :=
  match b with
  | h :: rest =>
      let n := Byte.to_N h in
      if ((160 <=? n) && (n <? 192))%N then
        let len := N.to_nat (n - 160) in
        if (len <=? length rest)%nat
        then Some (string_of_list_byte (take len rest), drop len rest)
        else None
      else None
  | [] => None
  end.

Definition msgpack_unsupported : error := Foreign "msgpack" "unsupported value".
Definition msgpack_invalid : error := Foreign "msgpack" "invalid code".

Fixpoint write_entries (entries : list (string * string)) : option bytes :=
  match entries with
  | [] => Some []
  | (k, v) :: rest =>
      match fixstr k, fixstr v, write_entries rest with
      | Some kb, Some vb, Some rb => Some (kb ++ vb ++ rb)
      | _, _, _ => None
      end
  end.

(** The fields are tagged omitempty: an empty one is left out. *)
Definition msgpack_Marshal (c : option RegisteredClaims) : bytes * option error :=
  match c with
  | None => ([to_byte 192], None)
  | Some c =>
      if negb (IsZero (ExpirationTime c)) || negb (IsZero (IssuedAt c))
         || negb (IsZero (NotBefore c)) || negb (Nat.eqb (length (Audience c)) 0)
      then ([], Some msgpack_unsupported)
      else
        let entries :=
          filter (fun e => e.2 <> "")
                 [(ClaimsKeyKeyID, KeyID c); (ClaimsKeyIssuer, Issuer c);
                  (ClaimsKeySubject, Subject c)] in
        match write_entries entries with
        | Some b => (to_byte (128 + N.of_nat (length entries)) :: b, None)
        | None => ([], Some msgpack_unsupported)
        end
  end.

Definition set_field (c : RegisteredClaims) (k v : string) : option RegisteredClaims :=
  if String.eqb k ClaimsKeyKeyID then
    Some {| KeyID := v; ExpirationTime := ExpirationTime c; IssuedAt := IssuedAt c;
            NotBefore := NotBefore c; Issuer := Issuer c; Subject := Subject c;
            Audience := Audience c |}
  else if String.eqb k ClaimsKeyIssuer then
    Some {| KeyID := KeyID c; ExpirationTime := ExpirationTime c; IssuedAt := IssuedAt c;
            NotBefore := NotBefore c; Issuer := v; Subject := Subject c;
            Audience := Audience c |}
  else if String.eqb k ClaimsKeySubject then
    Some {| KeyID := KeyID c; ExpirationTime := ExpirationTime c; IssuedAt := IssuedAt c;
            NotBefore := NotBefore c; Issuer := Issuer c; Subject := v;
            Audience := Audience c |}
  else None.

Fixpoint read_entries (n : nat) (b : bytes) (c : RegisteredClaims)
  : RegisteredClaims * option error :=
  match n with
  | O => (c, match b with [] => None | _ => Some msgpack_invalid end)
  | S n' =>
      match read_fixstr b with
      | Some (k, b1) =>
          match read_fixstr b1 with
          | Some (v, b2) =>
              match set_field c k v with
              | Some c' => read_entries n' b2 c'
              | None => (c, Some msgpack_unsupported)
              end
          | None => (c, Some msgpack_invalid)
          end
      | None => (c, Some msgpack_invalid)
      end
  end.

(** What reading a list of entries into a claims value gives. *)
Fixpoint set_fields (entries : list (string * string)) (c : RegisteredClaims)
  : RegisteredClaims * option error :=
  match entries with
  | [] => (c, None)
  | (k, v) :: rest =>
      match set_field c k v with
      | Some c' => set_fields rest c'
      | None => (c, Some msgpack_unsupported)
      end
  end.

Definition msgpack_Unmarshal (b : bytes) (c : RegisteredClaims)
  : RegisteredClaims * option error :=
  match b with
  | h :: rest =>
      let n := Byte.to_N h in
      if ((128 <=? n) && (n <? 144))%N then read_entries (N.to_nat (n - 128)) rest c
      else (c, Some msgpack_invalid)
  | [] => (c, Some msgpack_invalid)
  end.

(** A checksum of the right length in place of the MAC and the signature. *)
Definition checksum (l : bytes) : N :=
  fold_left (fun acc b => (acc * 31 + Byte.to_N b + 1) mod 256)%N l 7%N.

Definition spread (size : nat) (c : N) : bytes :=
  map (fun i => to_byte ((c + N.of_nat i) mod 256)%N) (seq 0 size).

Definition standin_HMAC (h : crypto_Hash) (key msg : bytes) : bytes :=
  spread (Hash_Size h) (checksum (key ++ Byte.x00 :: msg)).

(** A private key is a 32-byte seed followed by its public key. *)
Definition standin_pair (priv pub : bytes) : Prop :=
  length priv = ed25519_PrivateKeySize /\ pub = drop 32 priv.

Definition standin_sign (priv msg : bytes) : bytes :=
  spread ed25519_SignatureSize (checksum (drop 32 priv ++ msg)).

Definition standin_verify (pub msg sig : bytes) : bool :=
  ConstantTimeCompare sig (spread ed25519_SignatureSize (checksum (pub ++ msg))) =? 1.

(** Readings of a clock that starts in 2024 and ticks once per reading. *)
Definition standin_Now (n : nat) : Time := 63840000000000000000 + Z.of_nat n.

(** Concrete values for the examples: two claims values, a MAC key, wire
    strings, and a key pair of the signature stand-in. *)
Definition no_claims : RegisteredClaims :=
  {| KeyID := ""; ExpirationTime := 0; IssuedAt := 0; NotBefore := 0;
     Issuer := ""; Subject := ""; Audience := [] |}.

Definition alice : RegisteredClaims :=
  {| KeyID := ""; ExpirationTime := 0; IssuedAt := 0; NotBefore := 0;
     Issuer := ""; Subject := "alice"; Audience := [] |}.

Definition secret : bytes := list_byte_of_string "secret".

(** A claims value the msgpack stand-in refuses, as msgpack refuses a value
    of a type it cannot encode. *)
Definition unserialisable : RegisteredClaims :=
  {| KeyID := ""; ExpirationTime := 63840000000000000000; IssuedAt := 0; NotBefore := 0;
     Issuer := ""; Subject := ""; Audience := [] |}.

(** A token for [alice], authenticated with HS256 under [secret]. *)
Definition alice_token : string :=
  "BWT_HS256.gaNzdWKlYWxpY2U.u7y9vr_AwcLDxMXGx8jJysvMzc7P0NHS09TV1tfY2do".

(** The same claims under a prefix that names no registered algorithm. *)
Definition unknown_alg_token : string := "BWT_NONE.gaNzdWKlYWxpY2U.AAAA".

(** An unregistered algorithm and a claims segment that is not base64url. *)
Definition unknown_alg_bad_claims : string := "BWT_NONE.!.AAAA".

(** A 64-byte private key of the signature stand-in, and its public half. *)
Definition ed_private : bytes := spread 64 1.
Definition ed_public : bytes := drop 32 ed_private.

(** A checksum of 32 bytes in place of SHA3-256. *)
Definition standin_sha3 (l : bytes) : bytes := spread 32 (checksum l).

(** ** Vocabulary of the statements *)

Section ValidatorVocabulary.
Context {C : Type} `{Claims C} `{SystemClock}.

(** The time function a validator consults: the configured one, or
    [time.Now]. *)
Definition clock_of (v : Validator C) : TimeFunc :=
  match timeFunc v with
  | None => time_Now
  | Some f => f
  end.

(** What each rule of a list returns, in order, each run in the state the
    one before it left. *)
Fixpoint outcomes (fs : list (ValidatorFunc C)) (claims : C) (v : Validator C) (n : nat)
  : list (option error) :=
  match fs with
  | [] => []
  | f :: fs' =>
      let '(err, v', n') := run (f claims) v n in
      err :: outcomes fs' claims v' n'
  end.

(** What the self-validation of a claims value contributes. *)
Definition self_check (claims : C) : option error :=
  match AsClaimsValidator claims with
  | Some r => r
  | None => None
  end.

(** What a rule body returns when every call of [Now] answers [t] and the
    leeway is [d]. *)
Fixpoint answer {A} (r : Rule A) (t : Time) (d : Duration) : A :=
  match r with
  | Return a => a
  | CallNow k => answer (k t) t d
  | CallPTime k => answer (k (Add t (neg64 d))) t d
  | CallFTime k => answer (k (Add t d)) t d
  end.

(** The calls a client makes on a validator during its lifetime. *)
Inductive Call : Type :=
| DoNow
| DoPTime
| DoFTime
| DoValidate (claims : C).

Definition step (s : Validator C * nat) (c : Call) : Validator C * nat :=
  match c with
  | DoNow => let '(_, v, n) := Now s.1 s.2 in (v, n)
  | DoPTime => let '(_, v, n) := PTime s.1 s.2 in (v, n)
  | DoFTime => let '(_, v, n) := FTime s.1 s.2 in (v, n)
  | DoValidate claims => let '(_, v, n) := Validate s.1 claims s.2 in (v, n)
  end.

Definition after (calls : list Call) (s : Validator C * nat) : Validator C * nat :=
  fold_left step calls s.

(** A state reached from [(v, n)]: nothing happened yet, or the clock was
    read once and its reading is cached. *)
Definition reached (v : Validator C) (n : nat) (s : Validator C * nat) : Prop :=
  s = (v, n) \/ (IsZero (now s.1) = false /\ s.2 = S n).

End ValidatorVocabulary.

(** The errors an aggregate wraps directly. *)
Definition joined (agg : option error) : list error :=
  match agg with
  | Some (joinError es) => es
  | _ => []
  end.

(** How often a byte occurs in a string. *)
Fixpoint count_sep (sep : ascii) (s : string) : nat :=
  match s with
  | EmptyString => O
  | String c rest => ((if Ascii.eqb c sep then 1 else 0) + count_sep sep rest)%nat
  end.

Section OptionVocabulary.
Context {C : Type} `{Claims C} `{SystemClock}.

(** The options the package offers, as data. *)
Inductive option_spec : Type :=
| OptLeeway (d : Duration)
| OptTimeFunc (f : TimeFunc)
| OptValidator (f : ValidatorFunc C).

Definition to_option (o : option_spec) : ValidatorOption C :=
  match o with
  | OptLeeway d => WithLeeway d
  | OptTimeFunc f => WithTimeFunc f
  | OptValidator f => WithValidator f
  end.

Definition spec_leeway (o : option_spec) : option Duration :=
  match o with OptLeeway d => Some d | _ => None end.
Definition spec_timeFunc (o : option_spec) : option TimeFunc :=
  match o with OptTimeFunc f => Some f | _ => None end.
Definition spec_validator (o : option_spec) : option (ValidatorFunc C) :=
  match o with OptValidator f => Some f | _ => None end.

End OptionVocabulary.

(** * Part II: properties *)

(** ** Byte and string facts *)

Example Split_wire : Split "BWT_HS256.gA.AAAA" "." = ["BWT_HS256"; "gA"; "AAAA"].
Proof. reflexivity. Qed.

Example Split_empty : Split "" "." = [""].
Proof. reflexivity. Qed.

Example Split_trailing : Split "a.b." "." = ["a"; "b"; ""].
Proof. reflexivity. Qed.

Example Cut_prefix : Cut "BWT_HS_256" "_" = ("BWT", "HS_256", true).
Proof. reflexivity. Qed.

Example Cut_none : Cut "BWT" "_" = ("BWT", "", false).
Proof. reflexivity. Qed.

Example ConstantTimeCompare_lengths :
  ConstantTimeCompare (list_byte_of_string "a") (list_byte_of_string "ab") = 0.
Proof. reflexivity. Qed.

Example neg64_one_hour : neg64 3600000000000 = -3600000000000.
Proof. reflexivity. Qed.

Lemma to_N_inj (a b : Byte.byte) : Byte.to_N a = Byte.to_N b -> a = b.
Proof.
  intros E. pose proof (Byte.of_to_N a) as Ha. rewrite E, Byte.of_to_N in Ha.
  congruence.
Qed.

Lemma xor_fold_zero (x y : bytes) : forall v,
  length x = length y -> (xor_fold x y v = 0%N <-> v = 0%N /\ x = y).
Proof.
  revert y. induction x as [|a x IH]; intros [|b y] v Hlen; simpl in *; try discriminate.
  - split; [intros ->; auto | intros [-> _]; reflexivity].
  - injection Hlen as Hlen. rewrite (IH y _ Hlen), N.lor_eq_0_iff, N.lxor_eq_0_iff.
    split.
    + intros [[-> E] ->]. apply to_N_inj in E. subst. auto.
    + intros [-> E]. injection E as -> ->. auto.
Qed.

Lemma ConstantTimeCompare_refl (x : bytes) : ConstantTimeCompare x x = 1.
Proof.
  unfold ConstantTimeCompare. rewrite Nat.eqb_refl. simpl.
  assert (E : xor_fold x x 0%N = 0%N) by (apply xor_fold_zero; auto).
  rewrite E. reflexivity.
Qed.

Lemma ConstantTimeCompare_neq (x y : bytes) : x <> y -> ConstantTimeCompare x y = 0.
Proof.
  intros Hne. unfold ConstantTimeCompare.
  destruct (Nat.eqb (length x) (length y)) eqn:El; simpl; [|reflexivity].
  apply Nat.eqb_eq in El.
  destruct (N.eqb (xor_fold x y 0%N) 0%N) eqn:Ex; [|reflexivity].
  apply N.eqb_eq, xor_fold_zero in Ex; [|assumption]. destruct Ex as [_ Ex]. contradiction.
Qed.

Lemma ConstantTimeCompare_nonzero (x y : bytes) :
  negb (ConstantTimeCompare x y =? 0) = true <-> x = y.
Proof.
  split.
  - intros Hnz. destruct (List.list_eq_dec Byte.byte_eq_dec x y) as [E|Hne]; [exact E|].
    rewrite (ConstantTimeCompare_neq _ _ Hne) in Hnz. discriminate.
  - intros ->. rewrite ConstantTimeCompare_refl. reflexivity.
Qed.

Lemma list_byte_of_string_inj (s t : string) :
  list_byte_of_string s = list_byte_of_string t -> s = t.
Proof.
  intros E. rewrite <- (string_of_list_byte_of_string s), E.
  apply string_of_list_byte_of_string.
Qed.

(** ** errors.Join and errors.Is *)

Lemma omap_id_Some {A} (l : list A) : omap id (map Some l) = l.
Proof. induction l as [|a l IH]; simpl; [reflexivity|]. f_equal. exact IH. Qed.

Lemma joined_Join (l : list (option error)) : joined (errors_Join l) = omap id l.
Proof. unfold errors_Join. destruct (omap id l); reflexivity. Qed.

Lemma errors_Join_None (l : list (option error)) :
  errors_Join l = None <-> Forall (eq None) l.
Proof.
  unfold errors_Join. split.
  - intros Hj. induction l as [|[e|] l IH].
    + constructor.
    + simpl in Hj. discriminate.
    + constructor; [reflexivity|]. apply IH. simpl in Hj. exact Hj.
  - intros Hall. induction Hall as [|o l Ho _ IH]; [reflexivity|].
    subst o. simpl. exact IH.
Qed.

Lemma errors_Is_Join (first : sentinel) (e : error) (target : sentinel) :
  is_err (errors_Join [Some (Sentinel first); Some e]) target
  = bool_decide (first = target) || errors_Is e target.
Proof. simpl. now rewrite orb_false_r. Qed.

(** ** The validator *)

Section ValidatorFacts.
Context {C : Type} `{Claims C} `{SystemClock}.

Lemma run_validators_errors (fs : list (ValidatorFunc C)) (claims : C) :
  forall errs v n,
    (run_validators fs claims errs v n).1.1 = errs ++ omap id (outcomes fs claims v n).
Proof.
  induction fs as [|f fs IH]; intros errs v n; simpl.
  - now rewrite app_nil_r.
  - destruct (run (f claims) v n) as [[err v'] n']. rewrite IH.
    destruct err; simpl; [|reflexivity]. now rewrite <- app_assoc.
Qed.

Lemma outcomes_length (fs : list (ValidatorFunc C)) (claims : C) :
  forall v n, length (outcomes fs claims v n) = length fs.
Proof.
  induction fs as [|f fs IH]; intros v n; simpl; [reflexivity|].
  destruct (run (f claims) v n) as [[err v'] n']. simpl. now rewrite IH.
Qed.

Lemma Validate_error (v : Validator C) (claims : C) (n : nat) :
  (Validate v claims n).1.1
  = errors_Join (outcomes (validators v) claims v n ++ [self_check claims]).
Proof.
  unfold Validate.
  pose proof (run_validators_errors (validators v) claims [] v n) as Hr.
  destruct (run_validators (validators v) claims [] v n) as [[errs v'] n'].
  simpl in *. subst errs. unfold errors_Join.
  rewrite omap_id_Some, omap_app. unfold self_check.
  destruct (AsClaimsValidator claims) as [[e|]|]; simpl; now rewrite ?app_nil_r.
Qed.

(** C6. One call of [Validate] runs every registered rule, each once and in
    order, then the self-validation of the claims value when it has one.  It
    returns nil exactly when every rule and the self-check returned nil;
    otherwise the aggregate wraps every error the rules and the self-check
    returned, in order. *)
Theorem Validate_reports_every_failure (v : Validator C) (claims : C) (n : nat) :
  let outs := outcomes (validators v) claims v n in
  let agg := (Validate v claims n).1.1 in
  length outs = length (validators v)
  /\ agg = errors_Join (outs ++ [self_check claims])
  /\ (agg = None <-> Forall (eq None) outs /\ self_check claims = None)
  /\ joined agg = omap id outs ++ omap id [self_check claims]
  /\ (forall e, In (Some e) (outs ++ [self_check claims]) -> In e (joined agg)).
Proof.
  intros outs agg. subst outs agg. rewrite Validate_error, joined_Join, omap_app.
  split; [apply outcomes_length|]. split; [reflexivity|]. split; [|split; [reflexivity|]].
  - rewrite errors_Join_None, Forall_app. split.
    + intros [Ho Hs]. split; [exact Ho|]. now inversion Hs.
    + intros [Ho Hs]. split; [exact Ho|]. rewrite Hs. now constructor.
  - intros e Hin. rewrite <- omap_app.
    apply list_elem_of_In, list_elem_of_omap. exists (Some e).
    split; [now apply list_elem_of_In|reflexivity].
Qed.

(** *** int64 negation *)

Lemma wrap64_small (z : Z) : minInt64 <= z <= maxInt64 -> wrap64 z = z.
Proof.
  unfold wrap64, minInt64, maxInt64. intros Hz.
  rewrite Z.mod_small; lia.
Qed.

Lemma neg64_opp (d : Duration) : minInt64 < d <= maxInt64 -> neg64 d = - d.
Proof.
  unfold neg64, minInt64, maxInt64. intros Hd. apply wrap64_small.
  unfold minInt64, maxInt64. lia.
Qed.

Lemma neg64_minInt64 : neg64 minInt64 = minInt64.
Proof. reflexivity. Qed.

(** *** The cached timestamp *)

Lemma Now_cached (v : Validator C) (n : nat) :
  IsZero (now v) = false -> Now v n = (now v, v, n).
Proof. unfold Now. now intros ->. Qed.

Lemma Now_fresh (v : Validator C) (n : nat) :
  IsZero (now v) = true ->
  Now v n = (clock_of v n,
             {| leeway := leeway v; timeFunc := Some (clock_of v);
                now := clock_of v n; validators := validators v |}, S n).
Proof. unfold Now, clock_of. now intros ->. Qed.

Lemma Now_value (v : Validator C) (n : nat) :
  (Now v n).1.1 = if IsZero (now v) then clock_of v n else now v.
Proof. unfold Now, clock_of. now destruct (IsZero (now v)). Qed.

Lemma run_cached {A} (r : Rule A) (v : Validator C) (n : nat) :
  IsZero (now v) = false -> run r v n = (answer r (now v) (leeway v), v, n).
Proof.
  intros Hc. induction r as [a|k IH|k IH|k IH]; simpl.
  - reflexivity.
  - rewrite Now_cached by assumption. apply IH.
  - unfold PTime. rewrite Now_cached by assumption. apply IH.
  - unfold FTime. rewrite Now_cached by assumption. apply IH.
Qed.

Lemma run_validators_cached (fs : list (ValidatorFunc C)) (claims : C) :
  forall errs v n, IsZero (now v) = false ->
    (run_validators fs claims errs v n).1.2 = v /\ (run_validators fs claims errs v n).2 = n.
Proof.
  induction fs as [|f fs IH]; intros errs v n Hc; simpl; [auto|].
  rewrite run_cached by assumption. now apply IH.
Qed.

Lemma step_cached (v : Validator C) (n : nat) (c : Call) :
  IsZero (now v) = false -> step (v, n) c = (v, n).
Proof.
  intros Hc. destruct c as [| | |claims]; simpl.
  - now rewrite Now_cached.
  - unfold PTime. now rewrite Now_cached.
  - unfold FTime. now rewrite Now_cached.
  - unfold Validate.
    pose proof (run_validators_cached (validators v) claims [] v n Hc) as [Hv Hn].
    destruct (run_validators (validators v) claims [] v n) as [[errs v'] n'].
    simpl in *. now subst.
Qed.

Lemma after_cached (calls : list Call) (v : Validator C) (n : nat) :
  IsZero (now v) = false -> after calls (v, n) = (v, n).
Proof.
  intros Hc. unfold after. induction calls as [|c calls IH]; simpl; [reflexivity|].
  now rewrite step_cached.
Qed.

Lemma Now_reached (v : Validator C) (n : nat) :
  (forall k, IsZero (clock_of v k) = false) ->
  reached v n ((Now v n).1.2, (Now v n).2).
Proof.
  intros Hnz. destruct (IsZero (now v)) eqn:Hz.
  - rewrite Now_fresh by assumption. right. simpl. auto.
  - rewrite Now_cached by assumption. now left.
Qed.

Lemma run_reached {A} (r : Rule A) (v : Validator C) (n : nat) :
  (forall k, IsZero (clock_of v k) = false) ->
  reached v n ((run r v n).1.2, (run r v n).2).
Proof.
  intros Hnz. destruct (IsZero (now v)) eqn:Hz.
  2: { rewrite run_cached by assumption. now left. }
  assert (Hstep : forall r' : Rule A,
             reached v n ((run r' (Now v n).1.2 (Now v n).2).1.2,
                          (run r' (Now v n).1.2 (Now v n).2).2)).
  { intros r'. rewrite Now_fresh by assumption. simpl.
    rewrite run_cached by (simpl; apply Hnz). right. simpl. auto. }
  destruct r as [a|k|k|k]; simpl.
  - now left.
  - specialize (Hstep (k (Now v n).1.1)). now destruct (Now v n) as [[t v'] n'].
  - unfold PTime. specialize (Hstep (k (Add (Now v n).1.1 (neg64 (leeway v))))).
    now destruct (Now v n) as [[t v'] n'].
  - unfold FTime. specialize (Hstep (k (Add (Now v n).1.1 (leeway v)))).
    now destruct (Now v n) as [[t v'] n'].
Qed.

Lemma run_validators_reached (fs : list (ValidatorFunc C)) (claims : C) :
  forall errs v n, (forall k, IsZero (clock_of v k) = false) ->
    reached v n ((run_validators fs claims errs v n).1.2,
                 (run_validators fs claims errs v n).2).
Proof.
  induction fs as [|f fs IH]; intros errs v n Hnz; simpl; [now left|].
  pose proof (run_reached (f claims) v n Hnz) as Hr.
  destruct (run (f claims) v n) as [[err v'] n']. simpl in Hr.
  destruct Hr as [E|[Hc Hn]].
  - injection E as -> ->. now apply IH.
  - simpl in Hc, Hn. subst n'.
    destruct (run_validators_cached fs claims
                (match err with Some e => errs ++ [e] | None => errs end) v' (S n) Hc)
      as [-> ->].
    right. auto.
Qed.

Lemma step_reached (v : Validator C) (n : nat) (c : Call) :
  (forall k, IsZero (clock_of v k) = false) -> reached v n (step (v, n) c).
Proof.
  intros Hnz. destruct c as [| | |claims]; simpl.
  - pose proof (Now_reached v n Hnz). now destruct (Now v n) as [[t v'] n'].
  - unfold PTime. pose proof (Now_reached v n Hnz). now destruct (Now v n) as [[t v'] n'].
  - unfold FTime. pose proof (Now_reached v n Hnz). now destruct (Now v n) as [[t v'] n'].
  - unfold Validate.
    pose proof (run_validators_reached (validators v) claims [] v n Hnz).
    now destruct (run_validators (validators v) claims [] v n) as [[errs v'] n'].
Qed.

Lemma after_reached (calls : list Call) :
  forall v n, (forall k, IsZero (clock_of v k) = false) -> reached v n (after calls (v, n)).
Proof.
  unfold after. induction calls as [|c calls IH]; intros v n Hnz; simpl; [now left|].
  destruct (step_reached v n c Hnz) as [E|[Hc Hn]].
  - rewrite E. now apply IH.
  - destruct (step (v, n) c) as [v' n']. simpl in Hc, Hn. subst n'.
    fold (after calls (v', S n)). rewrite after_cached by assumption. right. auto.
Qed.

End ValidatorFacts.

Section Rules.
Context {C : Type} `{Claims C} `{SystemClock}.

Lemma errorIfRequired_error (required : bool) (claim : string) :
  errorIfRequired required claim <> None <-> required = true.
Proof. destruct required; unfold errorIfRequired, errors_Join; simpl; split; congruence. Qed.

Lemma errorIfRequired_missing (claim : string) :
  is_err (errorIfRequired true claim) ErrTokenRequiredClaimMissing = true.
Proof. reflexivity. Qed.

(** X1. The expiration rule, for every leeway whose negation is representable:
    an absent expiration time is an error exactly when it is required; a
    present one passes exactly when [now - leeway < exp], and fails with
    ErrTokenExpired otherwise. *)
Lemma verifyExpiration_spec (required : bool) (claims : C) (v : Validator C) (n : nat) :
  minInt64 < leeway v <= maxInt64 ->
  let exp := GetExpirationTime claims in
  let t := (Now v n).1.1 in
  let out := (run (verifyExpiration required claims) v n).1.1 in
  (exp = 0 -> out = errorIfRequired required ClaimsKeyExpirationTime
              /\ (out <> None <-> required = true))
  /\ (exp <> 0 -> (out = None <-> t - leeway v < exp)
                 /\ (t - leeway v >= exp -> out = Some (Sentinel ErrTokenExpired))).
Proof.
  intros Hl exp t out. subst exp t out. unfold verifyExpiration. split.
  - intros ->. simpl. split; [reflexivity|apply errorIfRequired_error].
  - intros Hexp. apply Z.eqb_neq in Hexp.
    change (IsZero (GetExpirationTime claims)) with (GetExpirationTime claims =? 0).
    rewrite Hexp. simpl.
    unfold PTime. destruct (Now v n) as [[t v'] n']. simpl.
    rewrite (neg64_opp _ Hl). unfold Before, Add, errorIfFalse.
    destruct (Z.ltb_spec (t + - leeway v) (GetExpirationTime claims)) as [Hlt|Hge].
    + split; [split; intros; [lia|reflexivity]|intros; lia].
    + split; [split; intros; [discriminate|lia]|reflexivity].
Qed.

Lemma audience_loop_spec (audience : string) (aud : list string) :
  forall result nonEmpty,
    ((audience_loop aud audience result nonEmpty).1 = true
       <-> result = true \/ In audience aud)
    /\ ((audience_loop aud audience result nonEmpty).2 = true
       <-> nonEmpty = true \/ exists a, In a aud /\ a <> "").
Proof.
  induction aud as [|a aud IH]; intros result nonEmpty; simpl.
  - split; (split; [auto|]).
    + intros [E|[]]. exact E.
    + intros [E|[a [[] _]]]. exact E.
  - destruct (IH (if negb (ConstantTimeCompare (list_byte_of_string a)
                                               (list_byte_of_string audience) =? 0)
                  then true else result)
                 (nonEmpty || negb (String.eqb a ""))) as [IH1 IH2].
    rewrite IH1, IH2. clear IH IH1 IH2. split.
    + destruct (negb (ConstantTimeCompare (list_byte_of_string a)
                        (list_byte_of_string audience) =? 0)) eqn:Ec.
      * apply ConstantTimeCompare_nonzero, list_byte_of_string_inj in Ec. subst a.
        split; auto.
      * assert (a <> audience) as Hne.
        { intros ->. rewrite (proj2 (ConstantTimeCompare_nonzero _ _)) in Ec by reflexivity.
          discriminate. }
        split; intros [E|E]; auto. destruct E as [E|E]; [contradiction|auto].
    + rewrite orb_true_iff, negb_true_iff, String.eqb_neq. split.
      * intros [[E|E]|[x [Hx Hne]]]; eauto.
      * intros [E|[x [[->|Hx] Hne]]]; eauto.
Qed.

(** C8. The audience rule treats an absent or empty audience list, and a
    list whose every entry is the empty string, as absent: an error exactly
    when the claim is required.  Otherwise it returns nil exactly when some
    entry equals the expected audience, and ErrTokenInvalidAudience when none
    does.  Entries are compared with [subtle.ConstantTimeCompare], which
    answers 1 exactly on equal strings.  The rule does not touch the
    validator. *)
Theorem verifyAudience_spec (required : bool) (audience : string) (claims : C)
    (v : Validator C) (n : nat) :
  let aud := GetAudience claims in
  let out := (run (verifyAudience required audience claims) v n).1.1 in
  ((forall a, In a aud -> a = "") ->
     out = errorIfRequired required ClaimsKeyAudience /\ (out <> None <-> required = true))
  /\ ((exists a, In a aud /\ a <> "") ->
        (out = None <-> In audience aud)
        /\ (~ In audience aud -> out = Some (Sentinel ErrTokenInvalidAudience)))
  /\ (forall a, ConstantTimeCompare (list_byte_of_string a) (list_byte_of_string audience) = 1
                <-> a = audience)
  /\ run (verifyAudience required audience claims) v n = (out, v, n).
Proof.
  intros aud out. subst aud out. unfold verifyAudience.
  destruct (audience_loop_spec audience (GetAudience claims) false false) as [Hres Hne].
  destruct (audience_loop (GetAudience claims) audience false false) as [result nonEmpty].
  simpl in Hres, Hne.
  split; [|split; [|split]].
  - intros Hall. destruct (GetAudience claims) as [|a aud] eqn:Ea; simpl.
    + split; [reflexivity|apply errorIfRequired_error].
    + assert (nonEmpty = false) as ->.
      { destruct nonEmpty; [|reflexivity]. destruct (proj1 Hne eq_refl) as [F|[x [Hx Hxne]]];
          [discriminate|]. destruct (Hxne (Hall x Hx)). }
      simpl. split; [reflexivity|apply errorIfRequired_error].
  - intros Hex. assert (nonEmpty = true) as -> by (apply Hne; auto).
    destruct (GetAudience claims) as [|a aud] eqn:Ea; [destruct Hex as [x [[] _]]|].
    simpl. unfold errorIfFalse. destruct result.
    + assert (Hin : In audience (a :: aud)).
      { destruct (proj1 Hres eq_refl) as [F|Hin]; [discriminate|exact Hin]. }
      split; [split; auto|]. intros Hn. destruct (Hn Hin).
    + assert (Hnin : ~ In audience (a :: aud)).
      { intros Hin. assert (false = true) by (apply Hres; auto). discriminate. }
      split; [|reflexivity]. split; [discriminate|]. intros Hin. destruct (Hnin Hin).
  - intros a. split.
    + intros E. apply list_byte_of_string_inj, ConstantTimeCompare_nonzero. now rewrite E.
    + intros ->. apply ConstantTimeCompare_refl.
  - destruct (Nat.eqb (length (GetAudience claims)) 0); [reflexivity|].
    destruct (negb nonEmpty); reflexivity.
Qed.

(** C9, as the code has it.  When the time function a validator consults
    never reads the zero time, it is consulted at most once over any sequence
    of [Now], [PTime], [FTime] and [Validate] calls; after the first [Now] no
    later call changes the validator or consults the clock, [Now] keeps
    answering the cached reading, [PTime] and [FTime] that reading shifted
    by the leeway, and every rule body sees only that reading. *)
Theorem clock_read_once_when_nonzero (v : Validator C) (n : nat) :
  (forall k, IsZero (clock_of v k) = false) ->
  (forall calls, ((after calls (v, n)).2 <= S n)%nat)
  /\ (let '(t, v1, n1) := Now v n in
      (n1 <= S n)%nat
      /\ leeway v1 = leeway v
      /\ forall calls,
           after calls (v1, n1) = (v1, n1)
           /\ Now v1 n1 = (t, v1, n1)
           /\ PTime v1 n1 = (Add t (neg64 (leeway v)), v1, n1)
           /\ FTime v1 n1 = (Add t (leeway v), v1, n1)
           /\ forall (r : Rule (option error)),
                run r v1 n1 = (answer r t (leeway v), v1, n1)).
Proof.
  intros Hnz. split.
  - intros calls. destruct (after_reached calls v n Hnz) as [->|[_ ->]]; simpl; lia.
  - assert (Hc : IsZero (now (Now v n).1.2) = false /\ now (Now v n).1.2 = (Now v n).1.1
                 /\ leeway (Now v n).1.2 = leeway v /\ ((Now v n).2 <= S n)%nat).
    { destruct (IsZero (now v)) eqn:Hz.
      - rewrite Now_fresh by assumption. simpl. auto.
      - rewrite Now_cached by assumption. simpl. auto. }
    destruct (Now v n) as [[t v1] n1]. simpl in Hc. destruct Hc as (Hc & Ht & Hl & Hn).
    split; [exact Hn|]. split; [exact Hl|]. intros calls.
    split; [now apply after_cached|].
    unfold PTime, FTime. rewrite Now_cached by assumption. rewrite Ht, Hl.
    repeat split. intros r. rewrite run_cached by assumption. now rewrite Ht, Hl.
Qed.

End Rules.

(** ** ClaimsMap *)

Lemma call_accessor_MapValue (a : accessor) (c : ClaimsMap) :
  call_accessor a c = MapValue (accessor_type a) c (accessor_key a).
Proof. destruct a; reflexivity. Qed.

Lemma assert_type_ok (V : claimType) (v : any) :
  has_type V v = true -> exists x, assert_type V v = Ret x.
Proof. destruct V, v; simpl; try discriminate; eauto. Qed.

Lemma assert_type_panics (V : claimType) (v : any) :
  has_type V v = false -> assert_type V v = Panic "interface conversion".
Proof. destruct V, v; simpl; try discriminate; reflexivity. Qed.

(** C10. Each of the seven ClaimsMap accessors returns the zero value of its
    type when its well-known key is absent, and panics in the unchecked type
    assertion whenever the key is present with a value of another dynamic
    type (the nil interface included); so for each accessor there is a map on
    which it panics, and it returns a value only when the key is absent or
    holds a value of the expected type. *)
Theorem ClaimsMap_accessor_partial (a : accessor) (c : ClaimsMap) :
  (c !! accessor_key a = None ->
     call_accessor a c = Ret (empty_of (accessor_type a)))
  /\ (forall v, c !! accessor_key a = Some v -> has_type (accessor_type a) v = false ->
        call_accessor a c = Panic "interface conversion")
  /\ (forall x, call_accessor a c = Ret x ->
        c !! accessor_key a = None
        \/ exists v, c !! accessor_key a = Some v /\ has_type (accessor_type a) v = true)
  /\ (exists c' : ClaimsMap, call_accessor a c' = Panic "interface conversion").
Proof.
  rewrite call_accessor_MapValue. unfold MapValue. repeat split.
  - now intros ->.
  - intros v -> Hty. now apply assert_type_panics.
  - intros x Hx. destruct (c !! accessor_key a) as [v|] eqn:Ev; [right|now left].
    exists v. split; [reflexivity|]. destruct (has_type (accessor_type a) v) eqn:Hty;
      [reflexivity|]. rewrite assert_type_panics in Hx by assumption. discriminate.
  - exists {[accessor_key a := anyNil]}. rewrite call_accessor_MapValue. unfold MapValue.
    rewrite lookup_singleton_eq. now destruct a.
Qed.

(** ** Verification by the two built-in families *)

Section AlgorithmFacts.
Context `{Crypto} `{!CryptoLaws}.

Lemma hmac_Equal_true (x y : bytes) : hmac_Equal x y = true <-> x = y.
Proof.
  unfold hmac_Equal. split.
  - intros E. destruct (List.list_eq_dec Byte.byte_eq_dec x y) as [Exy|Hne]; [exact Exy|].
    rewrite (ConstantTimeCompare_neq _ _ Hne) in E. discriminate.
  - intros ->. now rewrite ConstantTimeCompare_refl.
Qed.

Lemma hmac_Equal_false (x y : bytes) : hmac_Equal x y = false <-> x <> y.
Proof.
  rewrite <- hmac_Equal_true. destruct (hmac_Equal x y); split; congruence.
Qed.

(** The branches of [hmacAlgo.Verify], with the availability check and the
    hasher folded away. *)
Lemma hmacAlgo_Verify_eq (h : hmacAlgo) (prefix : string) (body : bytes) (key : Key)
    (tag : bytes) :
  hmacAlgo_Verify h prefix body key tag =
  Ret (match key with
       | KeyBytes k =>
           if negb (Nat.eqb (length tag) (Hash_Size (hash h)))
           then Some (Sentinel ErrTagInvalid)
           else if hmac_Equal tag (HMAC (hash h) k (list_byte_of_string prefix ++ body))
           then None else Some (Sentinel ErrWrongTag)
       | _ => Some (Sentinel ErrInvalidKeyType)
       end).
Proof.
  unfold hmacAlgo_Verify, hmac_New. rewrite sha3_available. simpl.
  destruct key; simpl; try reflexivity.
  destruct (negb (Nat.eqb (length tag) (Hash_Size (hash h)))); [reflexivity|].
  unfold hasher_Sum, hasher_Write. simpl.
  now destruct (hmac_Equal tag (HMAC (hash h) b (list_byte_of_string prefix ++ body))).
Qed.

Lemma algoEd25519_Verify_eq (prefix : string) (body : bytes) (key : Key) (tag : bytes) :
  algoEd25519_Verify prefix body key tag =
  Ret (match key with
       | KeyEd25519Public k =>
           if negb (Nat.eqb (length k) ed25519_PublicKeySize)
           then Some (Sentinel ErrInvalidKey)
           else if negb (Nat.eqb (length tag) ed25519_SignatureSize)
           then Some (Sentinel ErrTagInvalid)
           else if ed25519_verify k (list_byte_of_string prefix ++ body) tag
           then None else Some (Sentinel ErrWrongTag)
       | _ => Some (Sentinel ErrInvalidKeyType)
       end).
Proof.
  unfold algoEd25519_Verify, ed25519_Verify.
  destruct key; simpl; try reflexivity.
  destruct (negb (Nat.eqb (length b) ed25519_PublicKeySize)); [reflexivity|].
  destruct (negb (Nat.eqb (length tag) ed25519_SignatureSize)); [reflexivity|]. simpl.
  now destruct (ed25519_verify b (list_byte_of_string prefix ++ body) tag).
Qed.

(** C4. With the SHA-3 hashes linked in, [Verify] of either family always
    returns, and tells the causes apart.  A key of another dynamic type gives
    ErrInvalidKeyType; an [ed25519.PublicKey] of the wrong length gives
    ErrInvalidKey; with an acceptable key, a tag whose length is not the
    hash's output size (the signature size) gives ErrTagInvalid; and
    ErrWrongTag is returned exactly for a tag of the right length that fails
    the comparison with the recomputed MAC (the signature check). *)
Theorem Verify_distinguishes_errors (prefix : string) (body : bytes) (key : Key)
    (tag : bytes) :
  let msg := list_byte_of_string prefix ++ body in
  (forall h : hmacAlgo,
     let r := hmacAlgo_Verify h prefix body key tag in
     (exists err, r = Ret err)
     /\ ((forall k, key <> KeyBytes k) -> r = Ret (Some (Sentinel ErrInvalidKeyType)))
     /\ (forall k, key = KeyBytes k ->
           (length tag <> Hash_Size (hash h) -> r = Ret (Some (Sentinel ErrTagInvalid)))
           /\ (tag = HMAC (hash h) k msg -> r = Ret None))
     /\ (r = Ret (Some (Sentinel ErrWrongTag))
         <-> exists k, key = KeyBytes k /\ length tag = Hash_Size (hash h)
                       /\ tag <> HMAC (hash h) k msg))
  /\ (let r := algoEd25519_Verify prefix body key tag in
      (exists err, r = Ret err)
      /\ ((forall k, key <> KeyEd25519Public k) ->
            r = Ret (Some (Sentinel ErrInvalidKeyType)))
      /\ (forall k, key = KeyEd25519Public k ->
            (length k <> ed25519_PublicKeySize -> r = Ret (Some (Sentinel ErrInvalidKey)))
            /\ (length k = ed25519_PublicKeySize -> length tag <> ed25519_SignatureSize ->
                  r = Ret (Some (Sentinel ErrTagInvalid)))
            /\ (length k = ed25519_PublicKeySize -> length tag = ed25519_SignatureSize ->
                  ed25519_verify k msg tag = true -> r = Ret None))
      /\ (r = Ret (Some (Sentinel ErrWrongTag))
          <-> exists k, key = KeyEd25519Public k /\ length k = ed25519_PublicKeySize
                        /\ length tag = ed25519_SignatureSize
                        /\ ed25519_verify k msg tag = false)).
Proof.
  intros msg. subst msg. split.
  - intros h r. subst r. rewrite hmacAlgo_Verify_eq. split; [eauto|]. split; [|split].
    + intros Hk. destruct key; try reflexivity. destruct (Hk b eq_refl).
    + intros k ->. split.
      * intros Hlen. apply Nat.eqb_neq in Hlen. now rewrite Hlen.
      * intros ->. rewrite HMAC_size, Nat.eqb_refl. simpl.
        now rewrite (proj2 (hmac_Equal_true _ _) eq_refl).
    + split.
      * intros E. destruct key as [|k| | |]; try discriminate. exists k.
        destruct (Nat.eqb (length tag) (Hash_Size (hash h))) eqn:El; simpl in E;
          [|discriminate]. apply Nat.eqb_eq in El.
        destruct (hmac_Equal tag (HMAC (hash h) k (list_byte_of_string prefix ++ body)))
          eqn:Eq; [discriminate|]. apply hmac_Equal_false in Eq. auto.
      * intros (k & -> & Hlen & Hne). rewrite Hlen, Nat.eqb_refl. simpl.
        apply hmac_Equal_false in Hne. now rewrite Hne.
  - intros r. subst r. rewrite algoEd25519_Verify_eq. split; [eauto|]. split; [|split].
    + intros Hk. destruct key; try reflexivity. destruct (Hk b eq_refl).
    + intros k ->. split; [|split].
      * intros Hlen. apply Nat.eqb_neq in Hlen. now rewrite Hlen.
      * intros Hk Hlen. apply Nat.eqb_neq in Hlen. now rewrite Hk, Hlen.
      * intros Hk Hlen Hv. now rewrite Hk, Hlen, Hv.
    + split.
      * intros E. destruct key as [| |k| |]; try discriminate. exists k.
        destruct (Nat.eqb (length k) ed25519_PublicKeySize) eqn:Ek; simpl in E;
          [|discriminate]. apply Nat.eqb_eq in Ek.
        destruct (Nat.eqb (length tag) ed25519_SignatureSize) eqn:El; simpl in E;
          [|discriminate]. apply Nat.eqb_eq in El.
        destruct (ed25519_verify k (list_byte_of_string prefix ++ body) tag) eqn:Ev;
          [discriminate|]. auto.
      * intros (k & -> & Hk & Hlen & Hv). now rewrite Hk, Hlen, Hv.
Qed.

End AlgorithmFacts.

(** ** Splitting the wire string *)

Lemma Split_no_sep (s : string) (sep : ascii) :
  occurs sep s = false -> Split s sep = [s].
Proof.
  induction s as [|c s IH]; simpl; [reflexivity|].
  intros Ho. apply orb_false_elim in Ho as [Hc Hs]. rewrite Hc, (IH Hs). reflexivity.
Qed.

Lemma Split_app (s t : string) (sep : ascii) :
  occurs sep s = false ->
  Split (s ++ String sep t)%string sep = s :: Split t sep.
Proof.
  induction s as [|c s IH]; simpl.
  - intros _. now rewrite Ascii.eqb_refl.
  - intros Ho. apply orb_false_elim in Ho as [Hc Hs]. rewrite Hc, (IH Hs). reflexivity.
Qed.

Lemma Split_three (p e1 e2 : string) :
  occurs "." p = false -> occurs "." e1 = false -> occurs "." e2 = false ->
  Split (p ++ "." ++ e1 ++ "." ++ e2)%string "." = [p; e1; e2].
Proof.
  intros Hp H1 H2.
  change (p ++ "." ++ e1 ++ "." ++ e2)%string
    with (p ++ String "." (e1 ++ String "." e2))%string.
  now rewrite (Split_app _ _ _ Hp), (Split_app _ _ _ H1), (Split_no_sep _ _ H2).
Qed.

Lemma Split_nonempty (s : string) (sep : ascii) : Split s sep <> [].
Proof.
  destruct s as [|c s]; simpl; [discriminate|].
  destruct (Ascii.eqb c sep); [discriminate|]. now destruct (Split s sep).
Qed.

Lemma Join_cons (p q : string) (rest : list string) (sep : ascii) :
  Join (p :: q :: rest) sep = (p ++ String sep (Join (q :: rest) sep))%string.
Proof. reflexivity. Qed.

Lemma Join_Split (s : string) (sep : ascii) : Join (Split s sep) sep = s.
Proof.
  induction s as [|c s IH]; [reflexivity|].
  pose proof (Split_nonempty s sep) as Hne. cbn [Split].
  destruct (Split s sep) as [|p ps]; [contradiction|].
  destruct (Ascii.eqb_spec c sep) as [->|Hc].
  - rewrite Join_cons, IH. reflexivity.
  - destruct ps as [|q qs].
    + simpl in *. now rewrite IH.
    + rewrite Join_cons in *. rewrite <- IH. reflexivity.
Qed.

Lemma Cut_found (s : string) (sep : ascii) :
  (Cut s sep).2 = true -> s = ((Cut s sep).1.1 ++ String sep (Cut s sep).1.2)%string
                          /\ occurs sep (Cut s sep).1.1 = false.
Proof.
  induction s as [|c s IH]; simpl; [discriminate|].
  destruct (Ascii.eqb_spec c sep) as [->|Hne]; simpl; [auto|].
  destruct (Cut s sep) as [[before after] found]. simpl in *.
  intros Hf. destruct (IH Hf) as [E Ho]. split; [rewrite E at 1; reflexivity|].
  rewrite Ho. now apply Ascii.eqb_neq in Hne as ->.
Qed.

Lemma Cut_app (s t : string) (sep : ascii) :
  occurs sep s = false -> Cut (s ++ String sep t)%string sep = (s, t, true).
Proof.
  induction s as [|c s IH]; simpl.
  - intros _. now rewrite Ascii.eqb_refl.
  - intros Ho. apply orb_false_elim in Ho as [Hc Hs]. now rewrite Hc, (IH Hs).
Qed.

Lemma Cut_not_found (s : string) (sep : ascii) :
  (Cut s sep).2 = false -> Cut s sep = (s, "", false).
Proof.
  induction s as [|c s IH]; simpl; [reflexivity|].
  destruct (Ascii.eqb c sep); [discriminate|].
  destruct (Cut s sep) as [[before after] found]. simpl in *.
  intros ->. specialize (IH eq_refl). now injection IH as -> ->.
Qed.

(** ** The registry *)

Section RegistryFacts.
Context `{Crypto} `{Strings} `{!StringsLaws}.

(** After initialisation each built-in name resolves to its algorithm. *)
Lemma builtin_registry_resolves :
  GetAlgorithm builtin_registry "HS256" = Some (hmacAlgo_Algorithm HS256)
  /\ GetAlgorithm builtin_registry "HS384" = Some (hmacAlgo_Algorithm HS384)
  /\ GetAlgorithm builtin_registry "HS512" = Some (hmacAlgo_Algorithm HS512)
  /\ GetAlgorithm builtin_registry "EDDSA" = Some EdDSA.
Proof.
  unfold builtin_registry, GetAlgorithm, RegisterAlgorithm. simpl.
  rewrite !ToUpper_ascii by reflexivity. simpl.
  repeat split; repeat (rewrite lookup_insert_ne by discriminate);
    now rewrite lookup_insert_eq.
Qed.

(** Registering under one name leaves every other name as it was, and the
    last registration for a name wins. *)
Lemma RegisterAlgorithm_lookup (a : Algorithm) (reg : gmap string Algorithm) (name : string) :
  GetAlgorithm (RegisterAlgorithm a reg) name
  = if decide (ToUpper (Name a) = ToUpper name) then Some a else GetAlgorithm reg name.
Proof. unfold GetAlgorithm, RegisterAlgorithm. apply lookup_insert. Qed.

End RegistryFacts.

(** ** The parser *)

Section ParserVocabulary.
Context {C : Type} `{Claims C} `{SystemClock} `{Crypto} `{Strings} `{Base64} `{Msgpack C}.

(** The first segment is the type tag, an underscore and a non-empty
    algorithm name. *)
Definition prefix_ok (part : string) : bool :=
  let '(typ, algName, ok) := Cut part "_" in
  ok && String.eqb typ Type_ && negb (String.eqb algName "").

Definition alg_name (part : string) : string := (Cut part "_").1.2.

(** The claims segment fails base64url decoding, or what it decodes to fails
    deserialisation into the claims value. *)
Definition claims_undecodable (part : string) (claims : C) : bool :=
  match Decode part with
  | (_, Some _) => true
  | (body, None) =>
      match Unmarshal body claims with
      | (_, Some _) => true
      | (_, None) => false
      end
  end.

(** The parser's validator, when it has one, finds nothing wrong. *)
Definition accepts (p : Parser C) (claims : C) (n : nat) : Prop :=
  match validator p with
  | None => True
  | Some v => (Validate v claims n).1.1 = None
  end.

(** A built-in algorithm with a key to authenticate and the key to verify:
    any byte sequence for the keyed-hash family, a matching pair for
    EdDSA. *)
Inductive fits : Algorithm -> Key -> Key -> Prop :=
| fits_hmac (h : hmacAlgo) (k : bytes) :
    In h [HS256; HS384; HS512] ->
    fits (hmacAlgo_Algorithm h) (KeyBytes k) (KeyBytes k)
| fits_eddsa (priv pub : bytes) :
    ed25519_pair priv pub ->
    fits EdDSA (KeyEd25519Private priv) (KeyEd25519Public pub).

Definition builtin (a : Algorithm) : Prop :=
  (exists h, a = hmacAlgo_Algorithm h) \/ a = EdDSA.

End ParserVocabulary.

Section ParserFacts.
Context {C : Type} `{Claims C} `{SystemClock} `{Crypto} `{Strings} `{Base64} `{Msgpack C}.

Implicit Types (reg : gmap string Algorithm) (s : string) (claims : C).

Lemma prefix_ok_false_iff (part : string) :
  prefix_ok part = false
  <-> (Cut part "_").1.1 <> Type_ \/ alg_name part = "".
Proof.
  unfold prefix_ok, alg_name.
  pose proof (Cut_not_found part "_") as Hnf.
  destruct (Cut part "_") as [[typ algName] ok]. simpl in *.
  destruct (String.eqb_spec typ Type_) as [->|Ht],
           (String.eqb_spec algName "") as [->|Ha]; simpl;
    rewrite ?andb_true_r, ?andb_false_r.
  - split; auto.
  - destruct ok; [|specialize (Hnf eq_refl); congruence].
    split; [discriminate|]. intros [F|F]; congruence.
  - split; auto.
  - split; auto.
Qed.

Lemma ParseUnverified_parts reg s claims :
  Parts (u_raw (ParseUnverified reg s claims)) = Split s ".".
Proof.
  unfold ParseUnverified.
  repeat match goal with
         | |- context [match ?x with _ => _ end] => destruct x
         end; reflexivity.
Qed.

Lemma ParseUnverified_bad_parts reg s claims :
  length (Split s ".") <> 3%nat ->
  ParseUnverified reg s claims
  = {| u_token := None; u_raw := {| Parts := Split s "."; Raw_Claims := [] |};
       u_err := Some (Sentinel ErrTokenMalformed); u_claims := claims |}.
Proof.
  intros Hn. unfold ParseUnverified. apply Nat.eqb_neq in Hn. now rewrite Hn.
Qed.

Lemma ParseUnverified_bad_prefix reg s claims :
  length (Split s ".") = 3%nat -> prefix_ok (nth 0 (Split s ".") "") = false ->
  ParseUnverified reg s claims
  = {| u_token := None; u_raw := {| Parts := Split s "."; Raw_Claims := [] |};
       u_err := Some (Sentinel ErrTokenMalformed); u_claims := claims |}.
Proof.
  intros Hn Hp. unfold ParseUnverified, prefix_ok in *. rewrite Hn. simpl.
  destruct (Cut (nth 0 (Split s ".") "") "_") as [[typ algName] ok].
  destruct ok, (String.eqb typ Type_), (String.eqb algName ""); simpl in *;
    try reflexivity; discriminate.
Qed.

Lemma ParseUnverified_unregistered reg s claims :
  length (Split s ".") = 3%nat -> prefix_ok (nth 0 (Split s ".") "") = true ->
  GetAlgorithm reg (alg_name (nth 0 (Split s ".") "")) = None ->
  ParseUnverified reg s claims
  = {| u_token := Some {| Token_Algorithm := None; Token_Claims := None; Token_Tag := [] |};
       u_raw := {| Parts := Split s "."; Raw_Claims := [] |};
       u_err := Some (Sentinel ErrTokenUnverifiable); u_claims := claims |}.
Proof.
  intros Hn Hp Hg. unfold ParseUnverified, prefix_ok, alg_name in *. rewrite Hn. simpl.
  destruct (Cut (nth 0 (Split s ".") "") "_") as [[typ algName] ok].
  destruct ok, (String.eqb typ Type_), (String.eqb algName ""); simpl in *;
    try discriminate. now rewrite Hg.
Qed.

Lemma ParseUnverified_registered reg s claims (a : Algorithm) :
  length (Split s ".") = 3%nat -> prefix_ok (nth 0 (Split s ".") "") = true ->
  GetAlgorithm reg (alg_name (nth 0 (Split s ".") "")) = Some a ->
  let token := {| Token_Algorithm := Some a; Token_Claims := None; Token_Tag := [] |} in
  let body := (Decode (nth 1 (Split s ".") "")).1 in
  let raw := {| Parts := Split s "."; Raw_Claims := body |} in
  ParseUnverified reg s claims
  = match (Decode (nth 1 (Split s ".") "")).2 with
    | Some e =>
        {| u_token := Some token; u_raw := raw;
           u_err := errors_Join [Some (Sentinel ErrTokenMalformed); Some e];
           u_claims := claims |}
    | None =>
        match (Unmarshal body claims).2 with
        | Some e =>
            {| u_token := Some token; u_raw := raw;
               u_err := errors_Join [Some (Sentinel ErrTokenMalformed); Some e];
               u_claims := (Unmarshal body claims).1 |}
        | None =>
            {| u_token := Some {| Token_Algorithm := Some a;
                                  Token_Claims := Some (Unmarshal body claims).1;
                                  Token_Tag := [] |};
               u_raw := raw; u_err := None; u_claims := (Unmarshal body claims).1 |}
        end
    end.
Proof.
  intros Hn Hp Hg. unfold ParseUnverified, prefix_ok, alg_name in *. rewrite Hn. simpl.
  destruct (Cut (nth 0 (Split s ".") "") "_") as [[typ algName] ok].
  destruct ok, (String.eqb typ Type_), (String.eqb algName ""); simpl in *;
    try discriminate. rewrite Hg.
  destruct (Decode (nth 1 (Split s ".") "")) as [body [e|]]; simpl; [reflexivity|].
  now destruct (Unmarshal body claims) as [claims' [e|]].
Qed.

(** The token an unverified parse returns never carries a tag. *)
Lemma ParseUnverified_no_tag reg s claims (t : Token C) :
  u_token (ParseUnverified reg s claims) = Some t -> Token_Tag t = [].
Proof.
  unfold ParseUnverified.
  repeat match goal with
         | |- context [match ?x with _ => _ end] => destruct x
         end; simpl; intros E; try discriminate; now injection E as <-.
Qed.

End ParserFacts.

Section ParserTheorems.
Context {C : Type} `{Claims C} `{SystemClock} `{Crypto} `{Strings} `{Base64} `{Msgpack C}.

Implicit Types (reg : gmap string Algorithm) (s : string) (claims : C).

(** C5, as the code has it.  The unverified parse returns the malformed error
    exactly when the string does not split on '.' into three parts, or the
    first part is not "BWT", an underscore and a non-empty algorithm name, or
    the algorithm name is registered and the claims segment fails base64url
    decoding or deserialisation.  (With an unregistered name the claims
    segment is not looked at.) *)
Theorem ParseUnverified_malformed_iff reg s claims :
  let parts := Split s "." in
  let typ := (Cut (nth 0 parts "") "_").1.1 in
  let algName := (Cut (nth 0 parts "") "_").1.2 in
  is_err (u_err (ParseUnverified reg s claims)) ErrTokenMalformed = true
  <-> (length parts <> 3%nat
       \/ typ <> Type_
       \/ algName = ""
       \/ (GetAlgorithm reg algName <> None
           /\ claims_undecodable (nth 1 parts "") claims = true)).
Proof.
  intros parts typ algName. subst parts typ algName.
  pose proof (prefix_ok_false_iff (nth 0 (Split s ".") "")) as Hpf.
  fold (alg_name (nth 0 (Split s ".") "")).
  cut (is_err (u_err (ParseUnverified reg s claims)) ErrTokenMalformed = true
       <-> (length (Split s ".") <> 3%nat
            \/ prefix_ok (nth 0 (Split s ".") "") = false
            \/ (GetAlgorithm reg (alg_name (nth 0 (Split s ".") "")) <> None
                /\ claims_undecodable (nth 1 (Split s ".") "") claims = true))).
  { tauto. }
  clear Hpf.
  destruct (Nat.eq_dec (length (Split s ".")) 3%nat) as [Hn|Hn].
  2: { rewrite ParseUnverified_bad_parts by assumption. simpl. split; auto. }
  destruct (prefix_ok (nth 0 (Split s ".") "")) eqn:Hp.
  2: { rewrite ParseUnverified_bad_prefix by assumption. simpl. split; auto. }
  destruct (GetAlgorithm reg (alg_name (nth 0 (Split s ".") ""))) as [a|] eqn:Hg.
  2: { rewrite ParseUnverified_unregistered by assumption. simpl.
       split; [discriminate|]. intros [F|[F|[F _]]]; congruence. }
  rewrite (ParseUnverified_registered _ _ _ a) by assumption.
  unfold claims_undecodable.
  destruct (Decode (nth 1 (Split s ".") "")) as [body [e|]]; simpl.
  - split; [intros _|reflexivity]. right. right. split; [discriminate|reflexivity].
  - destruct (Unmarshal body claims) as [claims' [e|]]; simpl.
    + split; [intros _|reflexivity]. right. right. split; [discriminate|reflexivity].
    + split; [discriminate|]. intros [F|[F|[_ F]]]; congruence.
Qed.

(** C2, as the code has it.  When the wire string splits into three parts
    and its first part is well formed but names no registered algorithm, the
    unverified parse and the full parse both return exactly
    ErrTokenUnverifiable, which is not the malformed error, whatever the
    claims and tag segments hold; the claims segment is not decoded: the
    token returned has no algorithm, no claims and no tag, and the claims
    value passed in is left as it was. *)
Theorem unregistered_algorithm_unverifiable reg s claims
    (p : Parser C) (keyFunc : option (Keyfunc C)) (n : nat) :
  let parts := Split s "." in
  length parts = 3%nat ->
  prefix_ok (nth 0 parts "") = true ->
  GetAlgorithm reg (alg_name (nth 0 parts "")) = None ->
  let u := ParseUnverified reg s claims in
  let bare := {| Token_Algorithm := None; Token_Claims := None; Token_Tag := [] |} in
  u_err u = Some (Sentinel ErrTokenUnverifiable)
  /\ is_err (u_err u) ErrTokenMalformed = false
  /\ u_token u = Some bare
  /\ u_claims u = claims
  /\ ParseWithClaims p reg s claims keyFunc n
     = Ret {| p_token := Some bare; p_err := Some (Sentinel ErrTokenUnverifiable);
              p_claims := claims; p_parser := p; p_clock := n |}.
Proof.
  intros parts Hn Hp Hg u bare. subst parts u bare.
  unfold ParseWithClaims. rewrite ParseUnverified_unregistered by assumption.
  simpl. repeat split.
Qed.

Lemma Authenticate_builtin_failure (t : Token C) (a : Algorithm) (key : Key)
    (wire : string) (e : error) (t' : Token C) :
  Token_Algorithm t = Some a -> builtin a ->
  Authenticate t key = Ret (wire, Some e, t') ->
  (t' = t /\ (Token_Body t).2 = Some e) \/ Token_Tag t' = [].
Proof.
  intros Ha Hb. unfold Authenticate, Token_Prefix. rewrite Ha.
  destruct (Token_Body t) as [body [e0|]]; simpl.
  { intros E. inversion E; subst. now left. }
  intros E. right. destruct Hb as [[h ->]| ->]; simpl in E.
  - unfold hmacAlgo_Auth, hmac_New in E.
    destruct (Available (hash h)); simpl in E.
    + destruct key; simpl in E; inversion E; subst; reflexivity.
    + inversion E; subst; reflexivity.
  - unfold algoEd25519_Auth, ed25519_PrivateKey_Sign in E.
    destruct key; simpl in E; try (inversion E; subst; reflexivity).
    destruct (negb (Nat.eqb (length b) ed25519_PrivateKeySize)); simpl in E;
      inversion E; subst; reflexivity.
Qed.

Lemma ParseWithClaims_tag reg s claims (p : Parser C) (keyFunc : option (Keyfunc C))
    (n : nat) (parsed : Parsed C) (t : Token C) :
  ParseWithClaims p reg s claims keyFunc n = Ret parsed ->
  p_token parsed = Some t ->
  Token_Tag t = match u_err (ParseUnverified reg s claims) with
                | Some _ => []
                | None => (Decode (nth 2 (Split s ".") "")).1
                end.
Proof.
  unfold ParseWithClaims. rewrite ParseUnverified_parts.
  pose proof (ParseUnverified_no_tag reg s claims) as Hno.
  destruct (u_err (ParseUnverified reg s claims)) as [e|].
  { intros E Ht. injection E as <-. simpl in Ht. now apply Hno. }
  destruct (u_token (ParseUnverified reg s claims)) as [token|]; [|discriminate].
  destruct (Decode (nth 2 (Split s ".") "")) as [tag derr]. simpl.
  assert (Hdone : forall err pp nn,
             Ret {| p_token := Some (with_Tag token tag); p_err := err;
                    p_claims := u_claims (ParseUnverified reg s claims);
                    p_parser := pp; p_clock := nn |} = Ret parsed ->
             p_token parsed = Some t -> Token_Tag t = tag).
  { intros err pp nn E Ht. injection E as <-. simpl in Ht. now injection Ht as <-. }
  destruct derr; [apply Hdone|].
  destruct keyFunc as [kf|]; [|apply Hdone].
  destruct (kf (with_Tag token tag)) as [key [e|]]; [apply Hdone|].
  unfold Token_Prefix. simpl.
  destruct (Token_Algorithm token) as [a|]; simpl; [|discriminate].
  destruct (Verify a _ _ key tag) as [[e|]|msg]; simpl; [apply Hdone| |discriminate].
  destruct (validator p) as [v|]; [|apply Hdone].
  destruct (Token_Claims token) as [c|]; [|discriminate].
  destruct (Validate v c n) as [[[e|] v'] n']; apply Hdone.
Qed.

(** C3, as the code has it.  When [Authenticate] with a built-in algorithm
    returns an error, the token is left with an empty tag, unless it already
    carried one and it is the serialisation of the claims that failed (the
    token is then untouched); a token made by [New] is left with an empty
    tag.  The token [ParseWithClaims] returns has an empty tag when the
    structural parse failed, and otherwise carries the bytes decoded from the
    third segment, also when a later stage (tag decoding, key callback,
    verification, validation) returns an error. *)
Theorem tag_after_failure :
  (forall (t : Token C) (a : Algorithm) (key : Key) wire e t',
      Token_Algorithm t = Some a -> builtin a ->
      Authenticate t key = Ret (wire, Some e, t') ->
      (t' = t /\ (Token_Body t).2 = Some e) \/ Token_Tag t' = [])
  /\ (forall (a : Algorithm) claims (key : Key) wire e t',
         builtin a ->
         Authenticate (New a claims) key = Ret (wire, Some e, t') -> Token_Tag t' = [])
  /\ (forall reg s claims (p : Parser C) keyFunc n parsed t,
         ParseWithClaims p reg s claims keyFunc n = Ret parsed ->
         p_token parsed = Some t ->
         Token_Tag t = match u_err (ParseUnverified reg s claims) with
                       | Some _ => []
                       | None => (Decode (nth 2 (Split s ".") "")).1
                       end).
Proof.
  split; [|split].
  - intros. eapply Authenticate_builtin_failure; eauto.
  - intros a claims key wire e t' Hb E.
    destruct (Authenticate_builtin_failure (New a claims) a key wire e t' eq_refl Hb E)
      as [[-> _]|Ht]; [reflexivity|exact Ht].
  - intros. eapply ParseWithClaims_tag; eauto.
Qed.

End ParserTheorems.

(** ** The round trip *)

Section RoundTrip.
Context {C : Type} `{Claims C} `{SystemClock} `{Crypto} `{!CryptoLaws}
        `{Strings} `{Base64} `{!Base64Laws} `{Msgpack C} `{Codec C} `{!MsgpackLaws}.

(** What a built-in algorithm authenticates with a fitting key, it verifies
    with the matching key, for the same prefix and body. *)
Lemma Verify_Auth (a : Algorithm) (authKey verifyKey : Key) :
  fits a authKey verifyKey ->
  forall (prefix : string) (body : bytes),
  exists tag, Auth a prefix body authKey = Ret (tag, None)
              /\ Verify a prefix body verifyKey tag = Ret None.
Proof.
  intros [h k _|priv pub Hpair] prefix body; simpl.
  - exists (HMAC (hash h) k (list_byte_of_string prefix ++ body)). split.
    + unfold hmacAlgo_Auth, hmac_New. rewrite sha3_available. reflexivity.
    + rewrite hmacAlgo_Verify_eq, HMAC_size, Nat.eqb_refl. simpl.
      now rewrite (proj2 (hmac_Equal_true _ _) eq_refl).
  - destruct (ed25519_pair_sizes _ _ Hpair) as [Hpriv Hpub].
    exists (ed25519_sign priv (list_byte_of_string prefix ++ body)). split.
    + unfold algoEd25519_Auth, ed25519_PrivateKey_Sign. simpl.
      now rewrite Hpriv.
    + rewrite algoEd25519_Verify_eq, Hpub, ed25519_sign_size. simpl.
      now rewrite (ed25519_verify_sign _ _ _ Hpair).
Qed.

Lemma fits_prefix (a : Algorithm) (authKey verifyKey : Key) :
  fits a authKey verifyKey ->
  let prefix := (Type_ ++ "_" ++ Name a)%string in
  occurs "." prefix = false /\ prefix_ok prefix = true /\ alg_name prefix = Name a.
Proof.
  intros [h k Hin|priv pub _]; simpl.
  - destruct Hin as [<-|[<-|[<-|[]]]]; repeat split.
  - repeat split.
Qed.

(** The round trip for whatever the codec reads back: when the serialised
    claims deserialise into the container without error, parsing the wire
    string [Authenticate] returned succeeds and yields the deserialised
    claims. *)
Lemma round_trip_decoded (a : Algorithm) (authKey verifyKey : Key)
    (claims container decoded : C) (body : bytes)
    (reg : gmap string Algorithm) (p : Parser C) (n : nat) :
  fits a authKey verifyKey ->
  GetAlgorithm reg (Name a) = Some a ->
  Marshal (Some claims) = (body, None) ->
  Unmarshal body container = (decoded, None) ->
  accepts p decoded n ->
  exists (wire : string) (tag : bytes) (parsed : Parsed C),
    Authenticate (New a claims) authKey
      = Ret (wire, None, {| Token_Algorithm := Some a; Token_Claims := Some claims;
                            Token_Tag := tag |})
    /\ Auth a (Type_ ++ "_" ++ Name a)%string body authKey = Ret (tag, None)
    /\ Verify a (Type_ ++ "_" ++ Name a)%string body verifyKey tag = Ret None
    /\ ParseWithClaims p reg wire container (Some (KeyfuncFrom verifyKey)) n = Ret parsed
    /\ p_err parsed = None
    /\ p_token parsed = Some {| Token_Algorithm := Some a; Token_Claims := Some decoded;
                                Token_Tag := tag |}
    /\ p_claims parsed = decoded.
Proof.
  intros Hfits Hreg Hm Hu Hacc.
  destruct (fits_prefix _ _ _ Hfits) as (Hdot & Hok & Hname).
  set (prefix := (Type_ ++ "_" ++ Name a)%string) in *.
  destruct (Verify_Auth _ _ _ Hfits prefix body) as (tag & Hauth & Hver).
  set (wire := (prefix ++ "." ++ Encode body ++ "." ++ Encode tag)%string).
  assert (Hsplit : Split wire "." = [prefix; Encode body; Encode tag]).
  { apply Split_three; [exact Hdot|apply Encode_no_dot|apply Encode_no_dot]. }
  assert (Hpu : ParseUnverified reg wire container
                = {| u_token := Some {| Token_Algorithm := Some a;
                                        Token_Claims := Some decoded; Token_Tag := [] |};
                     u_raw := {| Parts := [prefix; Encode body; Encode tag];
                                 Raw_Claims := body |};
                     u_err := None; u_claims := decoded |}).
  { rewrite (ParseUnverified_registered reg wire container a); rewrite Hsplit.
    - simpl. rewrite Decode_Encode. simpl. now rewrite Hu.
    - reflexivity.
    - exact Hok.
    - simpl. now rewrite Hname. }
  exists wire, tag.
  assert (Hauthenticate :
            Authenticate (New a claims) authKey
            = Ret (wire, None, {| Token_Algorithm := Some a; Token_Claims := Some claims;
                                  Token_Tag := tag |})).
  { unfold Authenticate, Token_Body, Token_Prefix. simpl. rewrite Hm. simpl.
    fold prefix. rewrite Hauth. reflexivity. }
  unfold ParseWithClaims. rewrite Hpu. simpl. rewrite Decode_Encode.
  unfold Token_Prefix. simpl. fold prefix. rewrite Hver. simpl.
  unfold accepts in Hacc. destruct (validator p) as [v|].
  - destruct (Validate v decoded n) as [[err v'] n']. simpl in Hacc. subst err.
    eexists. repeat split; try eassumption; reflexivity.
  - eexists. repeat split; try eassumption; reflexivity.
Qed.

(** C1. For a built-in algorithm still registered under its name, a key that
    fits it (any byte sequence for the keyed-hash family, a matching pair for
    EdDSA) and claims the codec serialises: [Authenticate] returns a wire
    string, and parsing it into a new claims value with a key callback that
    returns the verification key, by a parser whose validator accepts the
    claims, succeeds without error.  The claims it yields, in the token and
    in the value the caller passed, are the original up to the precision the
    codec stores: equal to the original whenever the original is stored
    exactly.  In particular [Verify] accepts the tag [Auth] computed over the
    same prefix and body. *)
Theorem round_trip (a : Algorithm) (authKey verifyKey : Key) (claims : C) (body : bytes)
    (reg : gmap string Algorithm) (p : Parser C) (n : nat) :
  fits a authKey verifyKey ->
  GetAlgorithm reg (Name a) = Some a ->
  Marshal (Some claims) = (body, None) ->
  accepts p (stored claims) n ->
  exists (wire : string) (tag : bytes) (parsed : Parsed C),
    Authenticate (New a claims) authKey
      = Ret (wire, None, {| Token_Algorithm := Some a; Token_Claims := Some claims;
                            Token_Tag := tag |})
    /\ Auth a (Type_ ++ "_" ++ Name a)%string body authKey = Ret (tag, None)
    /\ Verify a (Type_ ++ "_" ++ Name a)%string body verifyKey tag = Ret None
    /\ ParseWithClaims p reg wire new_claims (Some (KeyfuncFrom verifyKey)) n = Ret parsed
    /\ p_err parsed = None
    /\ p_token parsed = Some {| Token_Algorithm := Some a;
                                Token_Claims := Some (stored claims); Token_Tag := tag |}
    /\ p_claims parsed = stored claims
    /\ (stored claims = claims ->
          p_claims parsed = claims
          /\ (Token_Claims <$> p_token parsed) = Some (Some claims)).
Proof.
  intros Hfits Hreg Hm Hacc.
  destruct (round_trip_decoded a authKey verifyKey claims new_claims (stored claims) body
              reg p n Hfits Hreg Hm (Unmarshal_Marshal _ _ Hm) Hacc)
    as (wire & tag & parsed & Ha & Hauth & Hver & Hp & He & Ht & Hc).
  exists wire, tag, parsed.
  split; [exact Ha|]. split; [exact Hauth|]. split; [exact Hver|]. split; [exact Hp|].
  split; [exact He|]. split; [exact Ht|]. split; [exact Hc|].
  intros Hexact. rewrite Hc, Ht, Hexact. split; reflexivity.
Qed.

(** The parser [NewParser] builds when it is given no validator accepts every
    claims value that has no self-validation, or whose self-validation
    passes. *)
Lemma default_parser_accepts (claims : C) (n : nat) :
  self_check claims = None -> accepts (NewParser []) claims n.
Proof.
  intros Hs. unfold accepts, NewParser. cbn [validator]. rewrite Validate_error.
  simpl. now rewrite Hs.
Qed.

End RoundTrip.

(** ** Further properties of the validator *)

Section MoreRules.
Context {C : Type} `{Claims C} `{SystemClock}.

(** A rule of the shape the issued-at and not-before rules share. *)
Lemma future_rule (x : Time) (key : string) (err : sentinel) (required : bool)
    (v : Validator C) (n : nat) :
  let r := if IsZero x then Return (errorIfRequired required key)
           else CallFTime (fun ft => Return (errorIfFalse (negb (Before ft x)) err)) in
  let t := (Now v n).1.1 in
  let out := (run r v n).1.1 in
  (x = 0 -> out = errorIfRequired required key
            /\ (out <> None <-> required = true)
            /\ (required = true -> is_err out ErrTokenRequiredClaimMissing = true)
            /\ run r v n = (out, v, n))
  /\ (x <> 0 -> (out = None <-> x <= t + leeway v)
               /\ (t + leeway v < x -> out = Some (Sentinel err))).
Proof.
  intros r t out. subst r t out. split.
  - intros ->. simpl. split; [reflexivity|]. split; [apply errorIfRequired_error|].
    split; [now intros ->|reflexivity].
  - intros Hx. apply Z.eqb_neq in Hx. unfold IsZero. rewrite Hx. simpl.
    unfold FTime. destruct (Now v n) as [[t v'] n']. simpl.
    unfold Before, Add, errorIfFalse.
    destruct (Z.ltb_spec (t + leeway v) x) as [Hlt|Hge]; simpl.
    + split; [split; intros; [discriminate|lia]|reflexivity].
    + split; [split; intros; [lia|reflexivity]|intros; lia].
Qed.

(** X2. The issued-at rule: an absent (zero) issued-at time is an error exactly
    when it is required, an error that is ErrTokenRequiredClaimMissing, and
    the clock is not consulted; a present one passes exactly when
    [iat <= now + leeway] and fails with ErrTokenUsedBeforeIssued
    otherwise. *)
Theorem verifyIssuedAt_spec (required : bool) (claims : C) (v : Validator C) (n : nat) :
  let iat := GetIssuedAt claims in
  let t := (Now v n).1.1 in
  let out := (run (verifyIssuedAt required claims) v n).1.1 in
  (iat = 0 -> out = errorIfRequired required ClaimsKeyIssuedAt
              /\ (out <> None <-> required = true)
              /\ (required = true -> is_err out ErrTokenRequiredClaimMissing = true)
              /\ run (verifyIssuedAt required claims) v n = (out, v, n))
  /\ (iat <> 0 -> (out = None <-> iat <= t + leeway v)
                 /\ (t + leeway v < iat -> out = Some (Sentinel ErrTokenUsedBeforeIssued))).
Proof.
  exact (future_rule (GetIssuedAt claims) ClaimsKeyIssuedAt ErrTokenUsedBeforeIssued
           required v n).
Qed.

(** X3. The not-before rule: an absent (zero) not-before time is an error
    exactly when it is required, and the clock is not consulted; a present
    one passes exactly when [nbf <= now + leeway] and fails with
    ErrTokenNotValidYet otherwise. *)
Theorem verifyNotBefore_spec (required : bool) (claims : C) (v : Validator C) (n : nat) :
  let nbf := GetNotBefore claims in
  let t := (Now v n).1.1 in
  let out := (run (verifyNotBefore required claims) v n).1.1 in
  (nbf = 0 -> out = errorIfRequired required ClaimsKeyNotBefore
              /\ (out <> None <-> required = true)
              /\ (required = true -> is_err out ErrTokenRequiredClaimMissing = true)
              /\ run (verifyNotBefore required claims) v n = (out, v, n))
  /\ (nbf <> 0 -> (out = None <-> nbf <= t + leeway v)
                 /\ (t + leeway v < nbf -> out = Some (Sentinel ErrTokenNotValidYet))).
Proof.
  exact (future_rule (GetNotBefore claims) ClaimsKeyNotBefore ErrTokenNotValidYet
           required v n).
Qed.

(** A rule of the shape the issuer and subject rules share. *)
Lemma exact_rule (x expected key : string) (err : sentinel) (required : bool)
    (v : Validator C) (n : nat) :
  let r : Rule (option error) :=
    if String.eqb x "" then Return (errorIfRequired required key)
    else Return (errorIfFalse (String.eqb x expected) err) in
  let out := (run r v n).1.1 in
  (x = "" -> out = errorIfRequired required key
             /\ (out <> None <-> required = true)
             /\ (required = true -> is_err out ErrTokenRequiredClaimMissing = true))
  /\ (x <> "" -> (out = None <-> x = expected)
                /\ (x <> expected -> out = Some (Sentinel err)))
  /\ run r v n = (out, v, n).
Proof.
  intros r out. subst r out. split; [|split].
  - intros ->. simpl. split; [reflexivity|]. split; [apply errorIfRequired_error|].
    now intros ->.
  - intros Hx. apply String.eqb_neq in Hx. rewrite Hx. simpl. unfold errorIfFalse.
    destruct (String.eqb_spec x expected) as [->|Hne].
    + split; [split; auto|]. intros F. now destruct F.
    + split; [|reflexivity]. split; [discriminate|]. intros E. now destruct (Hne E).
  - now destruct (String.eqb x "").
Qed.

(** X4. The issuer rule: an absent (empty) issuer is an error exactly when it
    is required; a present one passes exactly when it equals the expected
    issuer and fails with ErrTokenInvalidIssuer otherwise.  The rule never
    touches the validator or the clock. *)
Theorem verifyIssuer_spec (required : bool) (issuer : string) (claims : C)
    (v : Validator C) (n : nat) :
  let iss := GetIssuer claims in
  let out := (run (verifyIssuer required issuer claims) v n).1.1 in
  (iss = "" -> out = errorIfRequired required ClaimsKeyIssuer
               /\ (out <> None <-> required = true)
               /\ (required = true -> is_err out ErrTokenRequiredClaimMissing = true))
  /\ (iss <> "" -> (out = None <-> iss = issuer)
                  /\ (iss <> issuer -> out = Some (Sentinel ErrTokenInvalidIssuer)))
  /\ run (verifyIssuer required issuer claims) v n = (out, v, n).
Proof.
  exact (exact_rule (GetIssuer claims) issuer ClaimsKeyIssuer ErrTokenInvalidIssuer
           required v n).
Qed.

(** X5. The subject rule: an absent (empty) subject is an error exactly when
    it is required; a present one passes exactly when it equals the expected
    subject and fails with ErrTokenInvalidSubject otherwise.  The rule never
    touches the validator or the clock. *)
Theorem verifySubject_spec (required : bool) (subject : string) (claims : C)
    (v : Validator C) (n : nat) :
  let sub := GetSubject claims in
  let out := (run (verifySubject required subject claims) v n).1.1 in
  (sub = "" -> out = errorIfRequired required ClaimsKeySubject
               /\ (out <> None <-> required = true)
               /\ (required = true -> is_err out ErrTokenRequiredClaimMissing = true))
  /\ (sub <> "" -> (out = None <-> sub = subject)
                  /\ (sub <> subject -> out = Some (Sentinel ErrTokenInvalidSubject)))
  /\ run (verifySubject required subject claims) v n = (out, v, n).
Proof.
  exact (exact_rule (GetSubject claims) subject ClaimsKeySubject ErrTokenInvalidSubject
           required v n).
Qed.

Lemma is_err_Join (l : list (option error)) (target : sentinel) :
  is_err (errors_Join l) target = existsb (fun o => is_err o target) l.
Proof.
  unfold errors_Join.
  assert (E : existsb (fun e => errors_Is e target) (omap id l)
              = existsb (fun o => is_err o target) l).
  { induction l as [|[e|] l IH]; simpl; [reflexivity| |exact IH]. now rewrite <- IH. }
  rewrite <- E. now destruct (omap id l).
Qed.

(** X17. [errors.Is] sees through the aggregate [Validate] returns: the
    aggregate is a given package error exactly when the error of some rule,
    or of the self-validation, is. *)
Theorem Validate_errors_Is (v : Validator C) (claims : C) (n : nat) (target : sentinel) :
  is_err (Validate v claims n).1.1 target
  = existsb (fun o => is_err o target)
      (outcomes (validators v) claims v n ++ [self_check claims]).
Proof. rewrite Validate_error. apply is_err_Join. Qed.

Lemma last_cons_default {A} (l : list A) : forall d d0 : A,
  List.last (d :: l) d0 = List.last l d.
Proof.
  induction l as [|a l IH]; intros d d0; [reflexivity|].
  change (List.last (a :: l) d0 = List.last (a :: l) d).
  now rewrite (IH a d0), (IH a d).
Qed.

Lemma fold_options (os : list option_spec) : forall v0 : Validator C,
  let v := fold_left (fun v apply => apply v) (map to_option os) v0 in
  now v = now v0
  /\ validators v = validators v0 ++ omap spec_validator os
  /\ leeway v = List.last (omap spec_leeway os) (leeway v0)
  /\ timeFunc v = List.last (omap (fun o => Some <$> spec_timeFunc o) os) (timeFunc v0).
Proof.
  induction os as [|o os IH]; intros v0.
  - simpl. now rewrite app_nil_r.
  - cbn [map fold_left]. destruct (IH (to_option o v0)) as (Hn & Hv & Hl & Ht).
    cbv zeta. rewrite Hn, Hv, Hl, Ht. clear IH Hn Hv Hl Ht.
    destruct o as [d|f|f]; cbn [omap list_omap spec_leeway spec_timeFunc spec_validator
                                to_option fmap option_fmap option_map];
      simpl; repeat split.
    + exact (eq_sym (last_cons_default _ d (leeway v0))).
    + exact (eq_sym (last_cons_default _ (Some f) (timeFunc v0))).
    + now rewrite <- app_assoc.
Qed.

(** X18. [NewValidator] applies its options from left to right: the rules
    given by WithValidator are registered in the order given, the last
    WithLeeway and the last WithTimeFunc win (zero leeway and [time.Now]
    when there is none), and no option sets the cached timestamp, so a new
    validator has not read the clock yet. *)
Theorem NewValidator_options (os : list option_spec) :
  let v := NewValidator (map to_option os) in
  now v = 0
  /\ validators v = omap spec_validator os
  /\ leeway v = List.last (omap spec_leeway os) 0
  /\ timeFunc v = List.last (omap (fun o => Some <$> spec_timeFunc o) os) None
  /\ (forall claims n,
        (Validate v claims n).1.1
        = errors_Join (outcomes (omap spec_validator os) claims v n ++ [self_check claims])).
Proof.
  intros v. subst v. unfold NewValidator.
  destruct (fold_options os {| leeway := 0; timeFunc := None; now := 0; validators := [] |})
    as (Hn & Hv & Hl & Ht).
  simpl in Hn, Hv, Hl, Ht. repeat split; try assumption.
  intros claims n. rewrite Validate_error. now rewrite Hv.
Qed.

End MoreRules.

(** ** Further properties of the registry and of KeyID *)

Section MoreRegistry.
Context `{Crypto} `{Strings}.

(** X6. Registration is last-write-wins per upper-cased name and touches no
    other name: after registering [a], every name whose upper-casing is that
    of [a]'s name resolves to [a], every other name resolves as before, and
    an earlier registration under the same upper-cased name leaves no
    trace. *)
Theorem RegisterAlgorithm_last_wins (a : Algorithm) (reg : gmap string Algorithm) :
  GetAlgorithm (RegisterAlgorithm a reg) (Name a) = Some a
  /\ (forall name, ToUpper name = ToUpper (Name a) ->
        GetAlgorithm (RegisterAlgorithm a reg) name = Some a)
  /\ (forall name, ToUpper name <> ToUpper (Name a) ->
        GetAlgorithm (RegisterAlgorithm a reg) name = GetAlgorithm reg name)
  /\ (forall b, ToUpper (Name b) = ToUpper (Name a) ->
        RegisterAlgorithm a (RegisterAlgorithm b reg) = RegisterAlgorithm a reg).
Proof.
  unfold GetAlgorithm, RegisterAlgorithm. repeat split.
  - apply lookup_insert_eq.
  - intros name ->. apply lookup_insert_eq.
  - intros name Hne. apply lookup_insert_ne. congruence.
  - intros b ->. apply insert_insert_eq.
Qed.

Lemma registered_keys (algs : list Algorithm) : forall (reg : gmap string Algorithm) name,
  is_Some (fold_left (fun r a => RegisterAlgorithm a r) algs reg !! name)
  <-> is_Some (reg !! name) \/ exists a, In a algs /\ name = ToUpper (Name a).
Proof.
  induction algs as [|a algs IH]; intros reg name; simpl.
  - split; [auto|]. intros [Hs|(a & [] & _)]. exact Hs.
  - rewrite IH. unfold RegisterAlgorithm. rewrite lookup_insert_is_Some'. split.
    + intros [[<-|Hs]|(b & Hb & ->)]; eauto.
    + intros [Hs|(b & [<-|Hb] & ->)]; eauto.
Qed.

Lemma ListAlgorithms_In (reg : gmap string Algorithm) (name : string) :
  In name (ListAlgorithms reg) <-> is_Some (reg !! name).
Proof.
  unfold ListAlgorithms. rewrite <- list_elem_of_In, list_elem_of_fmap. split.
  - intros ([k a] & -> & Hka). apply elem_of_map_to_list in Hka. simpl. eauto.
  - intros [a Ha]. exists (name, a). split; [reflexivity|].
    now apply elem_of_map_to_list.
Qed.

(** X7. [ListAlgorithms] returns each registered key once: its length is the
    number of entries, a name is listed exactly when the registry holds an
    entry under it, and for a registry filled by [RegisterAlgorithm] the
    names listed are exactly the upper-cased names of the algorithms
    registered. *)
Theorem ListAlgorithms_spec (reg : gmap string Algorithm) (algs : list Algorithm) :
  List.NoDup (ListAlgorithms reg)
  /\ length (ListAlgorithms reg) = size reg
  /\ (forall name, In name (ListAlgorithms reg) <-> is_Some (reg !! name))
  /\ (forall name,
        In name (ListAlgorithms (fold_left (fun r a => RegisterAlgorithm a r) algs ∅))
        <-> exists a, In a algs /\ name = ToUpper (Name a)).
Proof.
  split; [|split; [|split]].
  - apply NoDup_ListNoDup, NoDup_fst_map_to_list.
  - unfold ListAlgorithms. now rewrite length_fmap, length_map_to_list.
  - apply ListAlgorithms_In.
  - intros name. rewrite ListAlgorithms_In, registered_keys, lookup_empty. split.
    + intros [[x Hx]|Hex]; [discriminate|exact Hex].
    + auto.
Qed.

End MoreRegistry.

Section BuiltinRegistry.
Context `{Crypto} `{Strings} `{!StringsLaws}.

(** X8. After initialisation the registry holds exactly the four built-in
    algorithms: an ASCII name resolves, whatever its letter case, to HS256,
    HS384, HS512 or EdDSA when its upper-casing is that name, and to nothing
    otherwise; [ListAlgorithms] lists the four names. *)
Theorem builtin_registry_names (name : string) :
  only_ascii name = true ->
  let found := GetAlgorithm builtin_registry name in
  (upper_ascii name = "HS256" -> found = Some (hmacAlgo_Algorithm HS256))
  /\ (upper_ascii name = "HS384" -> found = Some (hmacAlgo_Algorithm HS384))
  /\ (upper_ascii name = "HS512" -> found = Some (hmacAlgo_Algorithm HS512))
  /\ (upper_ascii name = "EDDSA" -> found = Some EdDSA)
  /\ (~ In (upper_ascii name) ["HS256"; "HS384"; "HS512"; "EDDSA"] -> found = None)
  /\ (forall listed, In listed (ListAlgorithms builtin_registry)
                     <-> In listed ["HS256"; "HS384"; "HS512"; "EDDSA"]).
Proof.
  intros Hascii found. subst found.
  assert (Hreg : builtin_registry
                 = <["HS512" := hmacAlgo_Algorithm HS512]>
                     (<["HS384" := hmacAlgo_Algorithm HS384]>
                        (<["HS256" := hmacAlgo_Algorithm HS256]>
                           (<["EDDSA" := EdDSA]> ∅)))).
  { unfold builtin_registry, RegisterAlgorithm. simpl.
    now rewrite !ToUpper_ascii by reflexivity. }
  unfold GetAlgorithm. rewrite (ToUpper_ascii _ Hascii), Hreg.
  split; [|split; [|split; [|split; [|split]]]].
  - intros ->. now rewrite !lookup_insert_ne, lookup_insert_eq by discriminate.
  - intros ->. now rewrite !lookup_insert_ne, lookup_insert_eq by discriminate.
  - intros ->. now rewrite lookup_insert_eq.
  - intros ->. now rewrite !lookup_insert_ne, lookup_insert_eq by discriminate.
  - intros Hnot. simpl in Hnot.
    rewrite !lookup_insert_ne by (intros E; apply Hnot; rewrite <- E; tauto).
    apply lookup_empty.
  - intros listed. rewrite ListAlgorithms_In, !lookup_insert_is_Some', lookup_empty.
    pose proof (@is_Some_None Algorithm) as Hnone. simpl.
    split.
    + intros [<-|[<-|[<-|[<-|F]]]]; tauto.
    + intros [<-|[<-|[<-|[<-|[]]]]]; tauto.
Qed.

End BuiltinRegistry.

Lemma list_byte_of_string_app (s t : string) :
  list_byte_of_string (s ++ t)%string = list_byte_of_string s ++ list_byte_of_string t.
Proof.
  induction s as [|c s IH]; [reflexivity|].
  change (list_byte_of_string (String c (s ++ t)%string)
          = list_byte_of_string (String c s) ++ list_byte_of_string t).
  unfold list_byte_of_string in *. simpl. now rewrite IH.
Qed.

Section KeyIDFacts.
Context `{Sha3} `{Base64} `{!Base64Laws}.

(** X9. [KeyID] hashes the algorithm name and the key material with nothing
    between them: moving bytes from the end of the name to the front of the
    key material gives the same key identifier.  The identifier is the
    base64url text of the digest: it decodes to the digest, holds no '.', and
    two identifiers are equal exactly when the digests are. *)
Theorem KeyID_concatenation (alg1 alg2 : string) (material : bytes) :
  KeyID_ (alg1 ++ alg2)%string material
    = KeyID_ alg1 (list_byte_of_string alg2 ++ material)
  /\ Decode (KeyID_ alg1 material)
     = (sha3_Sum256 (list_byte_of_string alg1 ++ material), None)
  /\ occurs "." (KeyID_ alg1 material) = false
  /\ (forall (alg' : string) (material' : bytes),
        KeyID_ alg1 material = KeyID_ alg' material'
        <-> sha3_Sum256 (list_byte_of_string alg1 ++ material)
            = sha3_Sum256 (list_byte_of_string alg' ++ material')).
Proof.
  unfold KeyID_, sha3_Sum, sha3_Write, sha3_New256. simpl. repeat split.
  - now rewrite list_byte_of_string_app, <- app_assoc.
  - apply Decode_Encode.
  - apply Encode_no_dot.
  - intros E. apply (f_equal Decode) in E. rewrite !Decode_Encode in E. congruence.
  - now intros ->.
Qed.

End KeyIDFacts.

(** ** Further properties of ClaimsMap *)

Lemma accessor_key_inj (a b : accessor) : accessor_key a = accessor_key b -> a = b.
Proof. destruct a, b; simpl; intros E; try reflexivity; discriminate E. Qed.

Lemma assert_type_to_any (V : claimType) (x : typeOf V) :
  assert_type V (to_any V x) = Ret x.
Proof. destruct V; reflexivity. Qed.

(** X15. Writing a value of the expected type under a well-known key and
    calling its accessor returns that value; writing or deleting any other
    key, a well-known one included, does not change what the accessor
    returns; deleting the accessor's own key, or reading the empty map,
    returns the zero value. *)
Theorem ClaimsMap_set_get (a : accessor) (m : ClaimsMap) (x : typeOf (accessor_type a)) :
  call_accessor a (<[accessor_key a := to_any (accessor_type a) x]> m) = Ret x
  /\ (forall key v, key <> accessor_key a ->
        call_accessor a (<[key := v]> m) = call_accessor a m)
  /\ (forall b v, b <> a ->
        call_accessor a (<[accessor_key b := v]> m) = call_accessor a m)
  /\ (forall key, key <> accessor_key a ->
        call_accessor a (delete key m) = call_accessor a m)
  /\ call_accessor a (delete (accessor_key a) m) = Ret (empty_of (accessor_type a))
  /\ call_accessor a ∅ = Ret (empty_of (accessor_type a)).
Proof.
  rewrite !call_accessor_MapValue. unfold MapValue. repeat split.
  - rewrite lookup_insert_eq. apply assert_type_to_any.
  - intros key v Hne. rewrite call_accessor_MapValue. unfold MapValue.
    now rewrite lookup_insert_ne.
  - intros b v Hne. rewrite call_accessor_MapValue. unfold MapValue.
    rewrite lookup_insert_ne; [reflexivity|]. intros E. apply accessor_key_inj in E.
    congruence.
  - intros key Hne. rewrite call_accessor_MapValue. unfold MapValue.
    now rewrite lookup_delete_ne.
  - now rewrite lookup_delete_eq.
Qed.

(** ** Further properties of the algorithms *)

Section MoreAlgorithms.
Context `{Crypto} `{!CryptoLaws}.

(** X10. [Auth] of either family always returns.  A key of another dynamic
    type gives ErrInvalidKeyType and no tag; the keyed-hash family accepts a
    byte key of any length and returns the MAC of prefix and body, of the
    hash's output size; EdDSA gives ErrInvalidKey and no tag for a private key
    that is not 64 bytes long, and otherwise the signature of prefix and body,
    64 bytes long. *)
Theorem Auth_distinguishes_errors (prefix : string) (body : bytes) (key : Key) :
  let msg := list_byte_of_string prefix ++ body in
  (forall h : hmacAlgo,
     let r := hmacAlgo_Auth h prefix body key in
     ((forall k, key <> KeyBytes k) -> r = Ret ([], Some (Sentinel ErrInvalidKeyType)))
     /\ (forall k, key = KeyBytes k ->
           r = Ret (HMAC (hash h) k msg, None)
           /\ length (HMAC (hash h) k msg) = Hash_Size (hash h)))
  /\ (let r := algoEd25519_Auth prefix body key in
      ((forall k, key <> KeyEd25519Private k) ->
         r = Ret ([], Some (Sentinel ErrInvalidKeyType)))
      /\ (forall k, key = KeyEd25519Private k ->
            (length k <> ed25519_PrivateKeySize ->
               r = Ret ([], Some (Sentinel ErrInvalidKey)))
            /\ (length k = ed25519_PrivateKeySize ->
                  r = Ret (ed25519_sign k msg, None)
                  /\ length (ed25519_sign k msg) = ed25519_SignatureSize))).
Proof.
  intros msg. subst msg. split.
  - intros h r. subst r. unfold hmacAlgo_Auth, hmac_New. rewrite sha3_available. simpl.
    split.
    + intros Hk. destruct key; try reflexivity. destruct (Hk b eq_refl).
    + intros k ->. simpl. split; [reflexivity|apply HMAC_size].
  - intros r. subst r. unfold algoEd25519_Auth, ed25519_PrivateKey_Sign. split.
    + intros Hk. destruct key; try reflexivity. destruct (Hk b eq_refl).
    + intros k ->. simpl. split.
      * intros Hlen. apply Nat.eqb_neq in Hlen. now rewrite Hlen.
      * intros Hlen. rewrite Hlen. simpl. split; [reflexivity|apply ed25519_sign_size].
Qed.

(** X11. [Verify] accepts exactly the tags that check out.  For the
    keyed-hash family the key must be a byte sequence and the tag must be the
    MAC of prefix and body under it: for each key one tag is accepted, and a
    key of type [ed25519.PublicKey] is never accepted.  For EdDSA the key
    must be an [ed25519.PublicKey] of 32 bytes, the tag 64 bytes long, and the
    signature check must succeed. *)
Theorem Verify_accepts_iff (prefix : string) (body : bytes) (key : Key) (tag : bytes) :
  let msg := list_byte_of_string prefix ++ body in
  (forall h : hmacAlgo,
     hmacAlgo_Verify h prefix body key tag = Ret None
     <-> exists k, key = KeyBytes k /\ tag = HMAC (hash h) k msg)
  /\ (algoEd25519_Verify prefix body key tag = Ret None
      <-> exists k, key = KeyEd25519Public k
                    /\ length k = ed25519_PublicKeySize
                    /\ length tag = ed25519_SignatureSize
                    /\ ed25519_verify k msg tag = true).
Proof.
  intros msg. subst msg. split.
  - intros h. rewrite hmacAlgo_Verify_eq. split.
    + intros E. destruct key as [|k| | |]; try discriminate. exists k.
      split; [reflexivity|].
      destruct (negb (Nat.eqb (length tag) (Hash_Size (hash h)))); [discriminate|].
      destruct (hmac_Equal tag (HMAC (hash h) k (list_byte_of_string prefix ++ body)))
        eqn:Eq; [|discriminate]. now apply hmac_Equal_true.
    + intros (k & -> & ->). rewrite HMAC_size, Nat.eqb_refl. simpl.
      now rewrite (proj2 (hmac_Equal_true _ _) eq_refl).
  - rewrite algoEd25519_Verify_eq. split.
    + intros E. destruct key as [| |k| |]; try discriminate. exists k.
      destruct (Nat.eqb (length k) ed25519_PublicKeySize) eqn:Ek; simpl in E;
        [|discriminate]. apply Nat.eqb_eq in Ek.
      destruct (Nat.eqb (length tag) ed25519_SignatureSize) eqn:El; simpl in E;
        [|discriminate]. apply Nat.eqb_eq in El.
      destruct (ed25519_verify k (list_byte_of_string prefix ++ body) tag) eqn:Ev;
        [auto|discriminate].
    + intros (k & -> & Hk & Hlen & Hv). now rewrite Hk, Hlen, Hv.
Qed.

End MoreAlgorithms.

(** ** Further properties of the parser *)

Lemma Split_length (s : string) (sep : ascii) :
  length (Split s sep) = S (count_sep sep s).
Proof.
  induction s as [|c s IH]; simpl; [reflexivity|].
  destruct (Ascii.eqb c sep); simpl; [now rewrite IH|].
  pose proof (Split_nonempty s sep). destruct (Split s sep); [contradiction|].
  simpl in *. exact IH.
Qed.

Lemma count_sep_app (s t : string) (sep : ascii) :
  count_sep sep (s ++ t)%string = (count_sep sep s + count_sep sep t)%nat.
Proof.
  induction s as [|c s IH]; [reflexivity|].
  change (count_sep sep (String c (s ++ t)%string)
          = (count_sep sep (String c s) + count_sep sep t)%nat).
  simpl. rewrite IH. lia.
Qed.

Lemma count_sep_occurs (s : string) (sep : ascii) :
  occurs sep s = true -> (1 <= count_sep sep s)%nat.
Proof.
  induction s as [|c s IH]; simpl; [discriminate|].
  destruct (Ascii.eqb c sep); simpl; [lia|exact IH].
Qed.

Section MoreParser.
Context {C : Type} `{Claims C} `{SystemClock} `{Crypto} `{Strings} `{Base64} `{Msgpack C}.

Implicit Types (reg : gmap string Algorithm) (s : string) (claims : C).

(** The four ways [ParseUnverified] ends. *)
Lemma ParseUnverified_cases reg s claims :
  let parts := Split s "." in
  let u := ParseUnverified reg s claims in
  ((length parts <> 3%nat \/ prefix_ok (nth 0 parts "") = false)
   /\ u = {| u_token := None; u_raw := {| Parts := parts; Raw_Claims := [] |};
             u_err := Some (Sentinel ErrTokenMalformed); u_claims := claims |})
  \/ (length parts = 3%nat /\ prefix_ok (nth 0 parts "") = true
      /\ GetAlgorithm reg (alg_name (nth 0 parts "")) = None
      /\ u = {| u_token := Some {| Token_Algorithm := None; Token_Claims := None;
                                   Token_Tag := [] |};
                u_raw := {| Parts := parts; Raw_Claims := [] |};
                u_err := Some (Sentinel ErrTokenUnverifiable); u_claims := claims |})
  \/ (exists a body e c',
         length parts = 3%nat /\ prefix_ok (nth 0 parts "") = true
         /\ GetAlgorithm reg (alg_name (nth 0 parts "")) = Some a
         /\ body = (Decode (nth 1 parts "")).1
         /\ u = {| u_token := Some {| Token_Algorithm := Some a; Token_Claims := None;
                                      Token_Tag := [] |};
                   u_raw := {| Parts := parts; Raw_Claims := body |};
                   u_err := Some (joinError [Sentinel ErrTokenMalformed; e]);
                   u_claims := c' |})
  \/ (exists a body decoded,
         length parts = 3%nat /\ prefix_ok (nth 0 parts "") = true
         /\ GetAlgorithm reg (alg_name (nth 0 parts "")) = Some a
         /\ Decode (nth 1 parts "") = (body, None)
         /\ Unmarshal body claims = (decoded, None)
         /\ u = {| u_token := Some {| Token_Algorithm := Some a;
                                      Token_Claims := Some decoded; Token_Tag := [] |};
                   u_raw := {| Parts := parts; Raw_Claims := body |};
                   u_err := None; u_claims := decoded |}).
Proof.
  intros parts u. subst parts u.
  destruct (Nat.eq_dec (length (Split s ".")) 3%nat) as [Hn|Hn].
  2: { left. split; [auto|]. now apply ParseUnverified_bad_parts. }
  destruct (prefix_ok (nth 0 (Split s ".") "")) eqn:Hp.
  2: { left. split; [auto|]. now apply ParseUnverified_bad_prefix. }
  destruct (GetAlgorithm reg (alg_name (nth 0 (Split s ".") ""))) as [a|] eqn:Hg.
  2: { right. left. repeat split; try assumption.
       now apply ParseUnverified_unregistered. }
  right. right.
  rewrite (ParseUnverified_registered _ _ _ a) by assumption.
  destruct (Decode (nth 1 (Split s ".") "")) as [body [e|]] eqn:Hd; simpl.
  - left. exists a, body, e, claims. repeat split; assumption.
  - destruct (Unmarshal body claims) as [decoded [e|]] eqn:Hu; simpl.
    + left. exists a, body, e, decoded. repeat split; assumption.
    + right. exists a, body, decoded. repeat split; assumption.
Qed.

(** X14. The token [ParseUnverified] returns.  It is nil exactly when the
    string does not split into three parts or its first part is not well
    formed, and the claims value passed in is then untouched.  A token that is
    returned never has a tag; its algorithm is what the registry holds under
    the name in the prefix; it has claims exactly when there is no error.
    The token returned with ErrTokenUnverifiable has a nil algorithm, and
    asking it for its [Prefix] panics. *)
Theorem ParseUnverified_token reg s claims :
  let parts := Split s "." in
  let u := ParseUnverified reg s claims in
  (u_token u = None <-> length parts <> 3%nat \/ prefix_ok (nth 0 parts "") = false)
  /\ (u_token u = None ->
        u_err u = Some (Sentinel ErrTokenMalformed) /\ u_claims u = claims)
  /\ (forall t, u_token u = Some t ->
        Token_Tag t = []
        /\ Token_Algorithm t = GetAlgorithm reg (alg_name (nth 0 parts ""))
        /\ (u_err u = None -> Token_Claims t = Some (u_claims u))
        /\ (u_err u <> None -> Token_Claims t = None))
  /\ (u_err u = Some (Sentinel ErrTokenUnverifiable) ->
        exists t, u_token u = Some t /\ Token_Algorithm t = None
                  /\ Token_Prefix t = Panic "invalid memory address or nil pointer dereference")
  /\ Parts (u_raw u) = parts.
Proof.
  intros parts u. subst parts u.
  pose proof (ParseUnverified_cases reg s claims) as Hcases. cbv zeta in Hcases.
  destruct Hcases
    as [[Hbad E]|[(Hn & Hp & Hg & E)|[(a & body & e & c' & Hn & Hp & Hg & _ & E)
                                     |(a & body & decoded & Hn & Hp & Hg & _ & _ & E)]]];
    rewrite E; simpl; (split; [|split; [|split; [|split]]]); try reflexivity;
    try discriminate.
  - split; auto.
  - intros _. split; reflexivity.
  - split; [discriminate|]. intros [F|F]; congruence.
  - intros t Ht. injection Ht as <-. simpl. repeat split; auto. congruence.
  - intros _. eexists. repeat split.
  - split; [discriminate|]. intros [F|F]; congruence.
  - intros t Ht. injection Ht as <-. simpl. repeat split; auto. discriminate.
  - split; [discriminate|]. intros [F|F]; congruence.
  - intros t Ht. injection Ht as <-. simpl. repeat split; auto. congruence.
Qed.

End MoreParser.

Section ParserPipeline.
Context {C : Type} `{Claims C} `{SystemClock} `{Crypto} `{Strings} `{Base64} `{Msgpack C}.

Implicit Types (reg : gmap string Algorithm) (s : string) (claims : C).

(** X12. [ParseWithClaims] returns no error only for a token that verified:
    the string splits into three parts, its prefix names a registered
    algorithm, the claims segment decodes and deserialises, the tag segment
    decodes, the key callback is present and returned a key without error,
    [Verify] accepted the tag over the prefix and the decoded claims bytes,
    and the validator, when the parser has one, found nothing wrong.  The
    token returned carries that algorithm, those claims and that tag. *)
Theorem ParseWithClaims_success_sound reg s claims (p : Parser C)
    (keyFunc : option (Keyfunc C)) (n : nat) (parsed : Parsed C) :
  ParseWithClaims p reg s claims keyFunc n = Ret parsed ->
  p_err parsed = None ->
  exists (a : Algorithm) (body tag : bytes) (decoded : C) (kf : Keyfunc C) (key : Key),
    length (Split s ".") = 3%nat
    /\ prefix_ok (nth 0 (Split s ".") "") = true
    /\ GetAlgorithm reg (alg_name (nth 0 (Split s ".") "")) = Some a
    /\ Decode (nth 1 (Split s ".") "") = (body, None)
    /\ Unmarshal body claims = (decoded, None)
    /\ Decode (nth 2 (Split s ".") "") = (tag, None)
    /\ keyFunc = Some kf
    /\ kf {| Token_Algorithm := Some a; Token_Claims := Some decoded; Token_Tag := tag |}
       = (key, None)
    /\ Verify a (Type_ ++ "_" ++ Name a)%string body key tag = Ret None
    /\ p_token parsed = Some {| Token_Algorithm := Some a; Token_Claims := Some decoded;
                                Token_Tag := tag |}
    /\ p_claims parsed = decoded
    /\ match validator p with
       | None => p_parser parsed = p /\ p_clock parsed = n
       | Some v =>
           (Validate v decoded n).1.1 = None
           /\ p_parser parsed = {| validator := Some (Validate v decoded n).1.2 |}
           /\ p_clock parsed = (Validate v decoded n).2
       end.
Proof.
  intros Hrun Hok. unfold ParseWithClaims in Hrun.
  pose proof (ParseUnverified_cases reg s claims) as Hcases. cbv zeta in Hcases.
  destruct Hcases
    as [[_ E]|[(_ & _ & _ & E)|[(a & body & e & c' & _ & _ & _ & _ & E)
                               |(a & body & decoded & Hn & Hp & Hg & Hd & Hu & E)]]];
    rewrite E in Hrun; simpl in Hrun;
    try (injection Hrun as <-; discriminate Hok).
  destruct (Decode (nth 2 (Split s ".") "")) as [tag [e|]] eqn:Ht;
    [injection Hrun as <-; discriminate Hok|].
  destruct keyFunc as [kf|]; [|injection Hrun as <-; discriminate Hok].
  unfold with_Tag in Hrun. simpl in Hrun.
  destruct (kf {| Token_Algorithm := Some a; Token_Claims := Some decoded;
                  Token_Tag := tag |}) as [key [e|]] eqn:Hk;
    [injection Hrun as <-; discriminate Hok|].
  unfold Token_Prefix in Hrun. simpl in Hrun.
  destruct (Verify a (Type_ ++ "_" ++ Name a)%string body key tag) as [[e|]|msg] eqn:Hv;
    simpl in Hrun; [injection Hrun as <-; discriminate Hok| |discriminate Hrun].
  exists a, body, tag, decoded, kf, key.
  destruct (validator p) as [v|] eqn:Hval.
  - destruct (Validate v decoded n) as [[[e|] v'] n'] eqn:Hvalidate;
      injection Hrun as <-; [discriminate Hok|]. simpl. repeat split; auto.
  - injection Hrun as <-. simpl. repeat split; auto.
Qed.

(** X13. Every error [ParseWithClaims] returns is, for [errors.Is], one of
    the four package errors: malformed, unverifiable, tag invalid, or invalid
    claims.  The validator runs only after the tag has verified: the parser's
    validator and the clock are untouched by a call that returns an error
    which is not ErrTokenInvalidClaims; and a tag-invalid error arises only
    from [Verify], never from a string that fails the structural parse. *)
Theorem ParseWithClaims_error_kinds reg s claims (p : Parser C)
    (keyFunc : option (Keyfunc C)) (n : nat) (parsed : Parsed C) (e : error) :
  ParseWithClaims p reg s claims keyFunc n = Ret parsed ->
  p_err parsed = Some e ->
  (errors_Is e ErrTokenMalformed || errors_Is e ErrTokenUnverifiable
   || errors_Is e ErrTokenTagInvalid || errors_Is e ErrTokenInvalidClaims = true)
  /\ (errors_Is e ErrTokenInvalidClaims = false ->
        p_parser parsed = p /\ p_clock parsed = n)
  /\ (u_err (ParseUnverified reg s claims) <> None ->
        p_err parsed = u_err (ParseUnverified reg s claims)
        /\ p_token parsed = u_token (ParseUnverified reg s claims)).
Proof.
  intros Hrun He. unfold ParseWithClaims in Hrun.
  pose proof (ParseUnverified_cases reg s claims) as Hcases. cbv zeta in Hcases.
  destruct Hcases
    as [[_ E]|[(_ & _ & _ & E)|[(a & body & e0 & c' & _ & _ & _ & _ & E)
                               |(a & body & decoded & Hn & Hp & Hg & Hd & Hu & E)]]];
    rewrite E in Hrun |- *; simpl in Hrun |- *.
  1-3: injection Hrun as <-; simpl in He |- *; injection He as <-; simpl;
       repeat split; auto.
  assert (Hleave : forall token (x y : error),
             Ret {| p_token := token; p_err := errors_Join [Some x; Some y];
                    p_claims := decoded; p_parser := p; p_clock := n |} = Ret parsed ->
             (errors_Is x ErrTokenMalformed || errors_Is x ErrTokenUnverifiable
              || errors_Is x ErrTokenTagInvalid = true
              \/ errors_Is y ErrTokenUnverifiable = true) ->
             (errors_Is e ErrTokenMalformed || errors_Is e ErrTokenUnverifiable
              || errors_Is e ErrTokenTagInvalid || errors_Is e ErrTokenInvalidClaims = true)
             /\ (errors_Is e ErrTokenInvalidClaims = false ->
                   p_parser parsed = p /\ p_clock parsed = n)
             /\ (@None error <> None -> p_err parsed = None /\ p_token parsed = Some
                   {| Token_Algorithm := Some a; Token_Claims := Some decoded;
                      Token_Tag := [] |})).
  { intros token x y Er Hxy. injection Er as <-. simpl in He. injection He as <-.
    split; [|split; [auto|intros F; now destruct F]].
    simpl. rewrite !orb_false_r.
    destruct Hxy as [Hx|Hy].
    - repeat (apply orb_prop in Hx as [Hx|Hx]); rewrite Hx; simpl;
        rewrite ?orb_true_r; reflexivity.
    - rewrite Hy. simpl. rewrite ?orb_true_r. reflexivity. }
  destruct (Decode (nth 2 (Split s ".") "")) as [tag [e1|]] eqn:Ht;
    [apply (Hleave _ _ _ Hrun); left; reflexivity|].
  destruct keyFunc as [kf|]; [|apply (Hleave _ _ _ Hrun); right; reflexivity].
  unfold with_Tag in Hrun. simpl in Hrun.
  destruct (kf {| Token_Algorithm := Some a; Token_Claims := Some decoded;
                  Token_Tag := tag |}) as [key [e1|]] eqn:Hk;
    [apply (Hleave _ _ _ Hrun); left; reflexivity|].
  unfold Token_Prefix in Hrun. simpl in Hrun.
  destruct (Verify a (Type_ ++ "_" ++ Name a)%string body key tag) as [[e1|]|msg] eqn:Hv;
    simpl in Hrun; [apply (Hleave _ _ _ Hrun); left; reflexivity| |discriminate Hrun].
  destruct (validator p) as [v|] eqn:Hval.
  - destruct (Validate v decoded n) as [[[e1|] v'] n'] eqn:Hvalidate;
      injection Hrun as <-; simpl in He; [|discriminate He].
    injection He as <-. simpl. rewrite !orb_true_r.
    split; [reflexivity|]. split; [discriminate|]. intros F. now destruct F.
  - injection Hrun as <-. discriminate He.
Qed.

End ParserPipeline.

Section WireFormat.
Context {C : Type} `{Claims C} `{SystemClock} `{Crypto} `{Strings}
        `{Base64} `{!Base64Laws} `{Msgpack C}.

(** What a successful [Authenticate] of a new token did. *)
Lemma Authenticate_success (a : Algorithm) (claims : C) (key : Key) (wire : string)
    (t' : Token C) :
  Authenticate (New a claims) key = Ret (wire, None, t') ->
  let prefix := (Type_ ++ "_" ++ Name a)%string in
  exists body tag,
    Marshal (Some claims) = (body, None)
    /\ Auth a prefix body key = Ret (tag, None)
    /\ wire = (prefix ++ "." ++ Encode body ++ "." ++ Encode tag)%string
    /\ t' = {| Token_Algorithm := Some a; Token_Claims := Some claims; Token_Tag := tag |}.
Proof.
  unfold Authenticate, Token_Body, Token_Prefix. simpl. intros E.
  destruct (Marshal (Some claims)) as [body [e|]]; [discriminate E|]. simpl in E.
  destruct (Auth a (Type_ ++ "_" ++ Name a)%string body key) as [[tag [e|]]|msg] eqn:Ha;
    simpl in E; try discriminate E.
  injection E as <- <-. exists body, tag. repeat split. exact Ha.
Qed.

(** X16. The wire string [Authenticate] returns for a new token is the
    prefix, the encoded claims and the encoded tag joined by '.'.  When the
    algorithm's name is empty or contains a '.', every unverified parse of
    that string fails as malformed and returns no token.  Otherwise the string
    splits back into exactly those three parts, and the unverified parse
    looks the algorithm's own name up in the registry: it returns
    ErrTokenUnverifiable when the name is not registered, and otherwise the
    claims bytes it decodes are the serialised claims, and it succeeds exactly
    when they deserialise into the claims value passed in. *)
Theorem Authenticate_wire_parses (a : Algorithm) (claims container : C) (key : Key)
    (wire : string) (t' : Token C) (reg : gmap string Algorithm) :
  Authenticate (New a claims) key = Ret (wire, None, t') ->
  let prefix := (Type_ ++ "_" ++ Name a)%string in
  let body := (Marshal (Some claims)).1 in
  let u := ParseUnverified reg wire container in
  wire = (prefix ++ "." ++ Encode body ++ "." ++ Encode (Token_Tag t'))%string
  /\ (occurs "." (Name a) = true \/ Name a = "" ->
        u_err u = Some (Sentinel ErrTokenMalformed) /\ u_token u = None)
  /\ (occurs "." (Name a) = false -> Name a <> "" ->
        Parts (u_raw u) = [prefix; Encode body; Encode (Token_Tag t')]
        /\ (GetAlgorithm reg (Name a) = None ->
              u_err u = Some (Sentinel ErrTokenUnverifiable))
        /\ (forall b, GetAlgorithm reg (Name a) = Some b ->
              Raw_Claims (u_raw u) = body
              /\ (Token_Algorithm <$> u_token u) = Some (Some b)
              /\ (u_err u = None <-> (Unmarshal body container).2 = None))).
Proof.
  intros Hauth prefix body u.
  destruct (Authenticate_success _ _ _ _ _ Hauth) as (body' & tag & Hm & _ & Hw & Ht).
  subst body. rewrite Hm. simpl. subst t'. simpl.
  split; [exact Hw|].
  assert (Hprefix : Cut prefix "_" = (Type_, Name a, true)) by reflexivity.
  split.
  - intros Hbad. subst u.
    destruct Hbad as [Hdot|Hempty].
    + assert (Hlen : length (Split wire ".") <> 3%nat).
      { rewrite Split_length, Hw.
        change (prefix ++ "." ++ Encode body' ++ "." ++ Encode tag)%string
          with (prefix ++ String "." (Encode body' ++ String "." (Encode tag)))%string.
        rewrite count_sep_app. simpl. rewrite count_sep_app. simpl.
        pose proof (count_sep_occurs _ _ Hdot) as Hn.
        match goal with
        | |- S (_ + S (count_sep _ ?r)) <> _ =>
            assert (Hr : (1 <= count_sep "." r)%nat)
        end.
        { change (1 <= count_sep "." (Encode body' ++ String "." (Encode tag))%string)%nat.
          rewrite count_sep_app. simpl. lia. }
        lia. }
      rewrite (ParseUnverified_bad_parts _ _ _ Hlen). split; reflexivity.
    + assert (Hsplit : Split wire "." = [prefix; Encode body'; Encode tag]).
      { rewrite Hw. apply Split_three; [|apply Encode_no_dot|apply Encode_no_dot].
        unfold prefix. rewrite Hempty. reflexivity. }
      rewrite ParseUnverified_bad_prefix; [split; reflexivity|now rewrite Hsplit|].
      rewrite Hsplit. simpl. unfold prefix. rewrite Hempty. reflexivity.
  - intros Hdot Hne.
    assert (Hsplit : Split wire "." = [prefix; Encode body'; Encode tag]).
    { rewrite Hw. apply Split_three; [|apply Encode_no_dot|apply Encode_no_dot].
      unfold prefix. simpl. exact Hdot. }
    assert (Hok : prefix_ok prefix = true).
    { unfold prefix_ok. rewrite Hprefix. simpl.
      apply String.eqb_neq in Hne. now rewrite Hne. }
    assert (Hname : alg_name prefix = Name a).
    { unfold alg_name. now rewrite Hprefix. }
    subst u. split; [now rewrite ParseUnverified_parts|]. split.
    + intros Hg. rewrite ParseUnverified_unregistered.
      * reflexivity.
      * now rewrite Hsplit.
      * rewrite Hsplit. cbn [nth]. exact Hok.
      * rewrite Hsplit. cbn [nth]. rewrite Hname. exact Hg.
    + intros b Hg.
      rewrite (ParseUnverified_registered reg wire container b).
      * rewrite Hsplit. cbn [nth]. rewrite Decode_Encode. cbn [fst snd].
        destruct (Unmarshal body' container) as [c' [e|]]; cbn [fst snd u_raw u_token u_err Raw_Claims fmap option_fmap option_map].
        -- split; [reflexivity|]. split; [reflexivity|]. split; discriminate.
        -- split; [reflexivity|]. split; [reflexivity|]. split; reflexivity.
      * now rewrite Hsplit.
      * rewrite Hsplit. cbn [nth]. exact Hok.
      * rewrite Hsplit. cbn [nth]. rewrite Hname. exact Hg.
Qed.

End WireFormat.

(** ** Further properties of [Authenticate] and of the parse after verification *)

Section AuthenticateFailure.
Context {C : Type} `{Claims C} `{SystemClock} `{Crypto} `{!CryptoLaws} `{Strings}
        `{Base64} `{Msgpack C}.

(** X19. How [Authenticate] fails.  Claims that do not serialise give the
    codec's error before anything else is looked at: the token is untouched,
    even when its algorithm is nil.  With serialisable claims a nil algorithm
    panics.  Whenever an error is returned the string returned is empty.  An
    error of [Auth] still overwrites the tag: for the built-in algorithms a
    key of the wrong type, or an EdDSA private key of the wrong size, resets
    the tag of an already authenticated token to nil. *)
Theorem Authenticate_failure (t : Token C) (key : Key) :
  (forall e, (Token_Body t).2 = Some e -> Authenticate t key = Ret ("", Some e, t))
  /\ ((Token_Body t).2 = None -> Token_Algorithm t = None ->
        Authenticate t key = Panic "invalid memory address or nil pointer dereference")
  /\ (forall wire e t', Authenticate t key = Ret (wire, Some e, t') ->
        wire = "" /\ Token_Algorithm t' = Token_Algorithm t
        /\ Token_Claims t' = Token_Claims t)
  /\ (forall wire t', Authenticate t key = Ret (wire, None, t') ->
        wire <> "" /\ (Token_Body t).2 = None
        /\ exists a, Token_Algorithm t = Some a
                     /\ Auth a (Type_ ++ "_" ++ Name a)%string (Token_Body t).1 key
                        = Ret (Token_Tag t', None))
  /\ ((Token_Body t).2 = None ->
      let cleared := {| Token_Algorithm := Token_Algorithm t;
                        Token_Claims := Token_Claims t; Token_Tag := [] |} in
      (forall h, Token_Algorithm t = Some (hmacAlgo_Algorithm h) ->
         (forall k, key <> KeyBytes k) ->
         Authenticate t key = Ret ("", Some (Sentinel ErrInvalidKeyType), cleared))
      /\ (Token_Algorithm t = Some EdDSA ->
            ((forall k, key <> KeyEd25519Private k) ->
               Authenticate t key = Ret ("", Some (Sentinel ErrInvalidKeyType), cleared))
            /\ (forall k, key = KeyEd25519Private k ->
                  length k <> ed25519_PrivateKeySize ->
                  Authenticate t key = Ret ("", Some (Sentinel ErrInvalidKey), cleared)))).
Proof.
  unfold Authenticate, Token_Prefix.
  destruct (Token_Body t) as [body [e0|]] eqn:Hbody; cbn [fst snd].
  - split; [intros e [= <-]; reflexivity|].
    split; [discriminate|].
    split; [intros wire e t' [= <- <- <-]; auto|].
    split; [discriminate|discriminate].
  - split; [discriminate|].
    split; [intros _ ->; reflexivity|].
    destruct (Token_Algorithm t) as [a|] eqn:Halg; cbn.
    2: { split; [discriminate|]. split; [discriminate|]. intros _.
         split; [discriminate|discriminate]. }
    split; [|split].
    + intros wire e t' E.
      destruct (Auth a (Type_ ++ "_" ++ Name a)%string body key) as [[tag [e1|]]|msg];
        cbn in E; [|discriminate E|discriminate E].
      injection E as <- <- <-. auto.
    + intros wire t' E.
      destruct (Auth a (Type_ ++ "_" ++ Name a)%string body key) as [[tag [e1|]]|msg]
        eqn:Ha; cbn in E; [discriminate E| |discriminate E].
      injection E as <- <-. split; [discriminate|]. split; [reflexivity|].
      exists a. auto.
    + intros _. split.
      * intros h [= ->] Hk. cbn [Auth Name hmacAlgo_Algorithm].
        unfold hmacAlgo_Auth. rewrite sha3_available. cbn [negb].
        destruct key as [|k| | |]; try reflexivity. destruct (Hk k eq_refl).
      * intros [= ->]. cbn [Auth Name EdDSA]. unfold algoEd25519_Auth. split.
        -- intros Hk. destruct key as [| | |k|]; try reflexivity. destruct (Hk k eq_refl).
        -- intros k -> Hlen. apply Nat.eqb_neq in Hlen. cbn [KeyAs]. cbn. now rewrite Hlen.
Qed.

End AuthenticateFailure.

Section ParseAfterVerify.
Context {C : Type} `{Claims C} `{SystemClock} `{Crypto} `{Strings} `{Base64} `{Msgpack C}.

Implicit Types (reg : gmap string Algorithm) (s : string) (claims : C).

(** X20. Once the tag has verified, the validator alone decides.  For a
    string whose three parts are well formed, whose algorithm is registered,
    whose claims and tag decode, and whose tag [Verify] accepts under the key
    the callback returns, [ParseWithClaims] returns the token with its
    algorithm, claims and tag, and: no error when the parser has no validator;
    otherwise no error exactly when [Validate] finds nothing wrong, and else
    the join of ErrTokenInvalidClaims and the validation error, so that
    [errors.Is] finds ErrTokenInvalidClaims and every error the validation
    reported.  The parser [NewParser] builds without a validator has no rule:
    it never reads the clock and rejects only what the claims' own validation
    rejects, whatever the time claims are. *)
Theorem ParseWithClaims_verified reg s claims (p : Parser C) (kf : Keyfunc C) (n : nat)
    (a : Algorithm) (body tag : bytes) (decoded : C) (key : Key) :
  length (Split s ".") = 3%nat ->
  prefix_ok (nth 0 (Split s ".") "") = true ->
  GetAlgorithm reg (alg_name (nth 0 (Split s ".") "")) = Some a ->
  Decode (nth 1 (Split s ".") "") = (body, None) ->
  Unmarshal body claims = (decoded, None) ->
  Decode (nth 2 (Split s ".") "") = (tag, None) ->
  kf {| Token_Algorithm := Some a; Token_Claims := Some decoded; Token_Tag := tag |}
    = (key, None) ->
  Verify a (Type_ ++ "_" ++ Name a)%string body key tag = Ret None ->
  exists parsed,
    ParseWithClaims p reg s claims (Some kf) n = Ret parsed
    /\ p_token parsed = Some {| Token_Algorithm := Some a; Token_Claims := Some decoded;
                                Token_Tag := tag |}
    /\ p_claims parsed = decoded
    /\ (validator p = None ->
          p_err parsed = None /\ p_parser parsed = p /\ p_clock parsed = n)
    /\ (forall v, validator p = Some v ->
          let r := Validate v decoded n in
          (p_err parsed = None <-> r.1.1 = None)
          /\ (forall e, r.1.1 = Some e ->
                p_err parsed = Some (joinError [Sentinel ErrTokenInvalidClaims; e])
                /\ is_err (p_err parsed) ErrTokenInvalidClaims = true
                /\ (forall target, errors_Is e target = true ->
                      is_err (p_err parsed) target = true))
          /\ p_parser parsed = {| validator := Some r.1.2 |}
          /\ p_clock parsed = r.2)
    /\ (p = NewParser [] ->
          (p_err parsed = None <-> self_check decoded = None) /\ p_clock parsed = n).
Proof.
  intros Hn Hp Hg Hd Hu Ht Hk Hv. unfold ParseWithClaims.
  rewrite (ParseUnverified_registered _ _ _ a) by assumption.
  rewrite Hd. cbn [fst snd]. rewrite Hu. cbn [fst snd u_err u_token u_raw u_claims Parts].
  rewrite Ht. unfold with_Tag. cbn [Token_Algorithm Token_Claims Token_Tag].
  rewrite Hk. unfold Token_Prefix. cbn [Token_Algorithm Token_Claims Token_Tag Raw_Claims].
  cbn [bind]. rewrite Hv. cbn [bind].
  assert (Hdefault : forall c m,
             Validate (NewValidator (C := C) []) c m
             = (errors_Join [self_check c], NewValidator [], m)).
  { intros c m. unfold Validate, NewValidator, self_check, errors_Join. cbn.
    now destruct (AsClaimsValidator c) as [[e|]|]. }
  destruct (validator p) as [v|] eqn:Hval.
  - destruct (Validate v decoded n) as [[[e|] v'] n'] eqn:Hvalidate; eexists;
      (split; [reflexivity|]); cbn [p_token p_err p_claims p_parser p_clock];
      (split; [reflexivity|]); (split; [reflexivity|]); (split; [discriminate|]); split.
    + intros v0 [= <-]. rewrite Hvalidate. cbn.
      split; [split; discriminate|]. split; [|split; reflexivity].
      intros e' [= <-]. split; [reflexivity|]. split; [reflexivity|].
      intros target Htarget. cbn. rewrite Htarget. now rewrite !orb_true_r.
    + intros ->. cbn in Hval. injection Hval as <-. rewrite Hdefault in Hvalidate.
      injection Hvalidate as Hs <- <-. split; [|reflexivity].
      unfold errors_Join in Hs. cbn. split; [discriminate|].
      intros Hnone. rewrite Hnone in Hs. discriminate Hs.
    + intros v0 [= <-]. rewrite Hvalidate. cbn.
      split; [tauto|]. split; [discriminate|split; reflexivity].
    + intros ->. cbn in Hval. injection Hval as <-. rewrite Hdefault in Hvalidate.
      injection Hvalidate as Hs <- <-. split; [|reflexivity].
      unfold errors_Join in Hs. cbn. split; [|reflexivity]. intros _.
      destruct (self_check decoded); [discriminate Hs|reflexivity].
  - eexists. split; [reflexivity|]. cbn [p_token p_err p_claims p_parser p_clock].
    split; [reflexivity|]. split; [reflexivity|]. split; [auto|]. split; [discriminate|].
    intros ->. discriminate Hval.
Qed.

End ParseAfterVerify.

Section CachedValidator.
Context {C : Type} `{Claims C} `{SystemClock}.

Lemma outcomes_cached (fs : list (ValidatorFunc C)) (claims : C) (v : Validator C)
    (n : nat) :
  IsZero (now v) = false ->
  outcomes fs claims v n = map (fun f => answer (f claims) (now v) (leeway v)) fs.
Proof.
  intros Hc. induction fs as [|f fs IH]; [reflexivity|].
  cbn [outcomes map]. rewrite run_cached by assumption. now rewrite IH.
Qed.

(** X21. A validator that has read the clock keeps judging by that reading.
    When its cached timestamp is not the zero time, [Validate] neither changes
    the validator nor consults the time function, and its result is the join
    of what each rule answers at the cached timestamp, followed by the
    self-validation: the verdict on a claims value is the same at every later
    call, however far the clock has moved on. *)
Theorem Validate_cached (v : Validator C) (claims : C) (n : nat) :
  IsZero (now v) = false ->
  Validate v claims n
  = (errors_Join (map (fun f => answer (f claims) (now v) (leeway v)) (validators v)
                  ++ [self_check claims]), v, n)
  /\ (forall m, (Validate v claims m).1.1 = (Validate v claims n).1.1)
  /\ (forall calls m,
        (Validate (after calls (v, m)).1 claims (after calls (v, m)).2).1.1
        = (Validate v claims n).1.1).
Proof.
  intros Hc.
  assert (Hval : forall m,
             Validate v claims m
             = (errors_Join (map (fun f => answer (f claims) (now v) (leeway v))
                               (validators v) ++ [self_check claims]), v, m)).
  { intros m. pose proof (Validate_error v claims m) as He.
    rewrite (outcomes_cached _ _ _ _ Hc) in He.
    pose proof (run_validators_cached (validators v) claims [] v m Hc) as [Hv Hm].
    unfold Validate in *.
    destruct (run_validators (validators v) claims [] v m) as [[errs v'] m'].
    cbn [fst snd] in *. subst v' m'. now rewrite He. }
  split; [apply Hval|]. split.
  - intros m. now rewrite !Hval.
  - intros calls m. rewrite (after_cached calls v m Hc). cbn [fst snd]. now rewrite !Hval.
Qed.

End CachedValidator.

(** * Part III: the stand-ins satisfy the laws; the statements at concrete inputs *)

#[global] Instance standin_clock : SystemClock := {| time_Now := standin_Now |}.
#[global] Instance standin_strings : Strings := {| ToUpper := upper_ascii |}.
#[global] Instance standin_base64 : Base64 :=
  {| Encode := base64_Encode; Decode := base64_Decode |}.
#[global] Instance standin_msgpack : Msgpack RegisteredClaims :=
  {| Marshal := msgpack_Marshal; Unmarshal := msgpack_Unmarshal |}.
#[global] Instance standin_crypto : Crypto :=
  {| Available := fun _ => true; HMAC := standin_HMAC;
     ed25519_sign := standin_sign; ed25519_verify := standin_verify;
     ed25519_pair := standin_pair |}.

#[global] Instance standin_strings_laws : StringsLaws.
Proof. constructor. intros s _. reflexivity. Qed.

(** ** The base64url stand-in *)

Lemma to_byte_to_N (b : Byte.byte) : to_byte (Byte.to_N b) = b.
Proof. unfold to_byte. now rewrite Byte.of_to_N. Qed.

Lemma map_to_byte_to_N (l : bytes) : map to_byte (map Byte.to_N l) = l.
Proof. induction l as [|b l IH]; simpl; [reflexivity|]. now rewrite to_byte_to_N, IH. Qed.

Lemma list_ind3 {A} (P : list A -> Prop) :
  P [] -> (forall a, P [a]) -> (forall a b, P [a; b]) ->
  (forall a b c l, P l -> P (a :: b :: c :: l)) ->
  forall l, P l.
Proof.
  intros H0 H1 H2 H3 l.
  assert (Hall : P l /\ (forall a, P (a :: l)) /\ (forall a b, P (a :: b :: l))).
  { induction l as [|x l (IH0 & IH1 & IH2)]; [auto|].
    split; [apply IH1|]. split; [intros a; apply IH2|]. intros a b. now apply H3. }
  apply Hall.
Qed.

(** Goals about [/] and [mod] on N by constants. *)
Ltac div_mod_lia := zify; Z.to_euclidean_division_equations; lia.

Lemma sextets_bound (bs : list N) :
  Forall (fun b => b < 256)%N bs -> Forall (fun x => x < 64)%N (sextets bs).
Proof.
  induction bs as [|a|a b|a b c l IH] using list_ind3; intros Hb; simpl.
  - constructor.
  - inversion Hb; subst. repeat constructor; div_mod_lia.
  - inversion Hb as [|? ? Ha Hb']; subst. inversion Hb'; subst.
    repeat constructor; div_mod_lia.
  - inversion Hb as [|? ? Ha Hb1]; subst. inversion Hb1 as [|? ? Hb2 Hb3]; subst.
    inversion Hb3 as [|? ? Hc Hl]; subst.
    repeat (constructor; [div_mod_lia|]).
    now apply IH.
Qed.

Lemma octets_sextets (bs : list N) :
  Forall (fun b => b < 256)%N bs -> octets (sextets bs) = Some bs.
Proof.
  induction bs as [|a|a b|a b c l IH] using list_ind3; intros Hb.
  - reflexivity.
  - inversion Hb; subst. cbn [sextets octets]. do 2 f_equal.
    div_mod_lia.
  - inversion Hb as [|? ? Ha Hb']; subst. inversion Hb'; subst.
    cbn [sextets octets]. do 2 f_equal; [|f_equal];
      div_mod_lia.
  - inversion Hb as [|? ? Ha Hb1]; subst. inversion Hb1 as [|? ? Hb2 Hb3]; subst.
    inversion Hb3 as [|? ? Hc Hl]; subst.
    cbn [sextets octets]. rewrite (IH Hl).
    do 2 f_equal; [|f_equal; [|f_equal]]; div_mod_lia.
Qed.

Lemma alphabet_no_dot (k : nat) : nth k alphabet "A"%char <> "."%char.
Proof.
  destruct (Nat.lt_ge_cases k (length alphabet)) as [Hlt|Hge].
  - assert (Hall : Forall (fun c => c <> "."%char) alphabet).
    { unfold alphabet. simpl. repeat (constructor; [discriminate|]). constructor. }
    rewrite Forall_forall in Hall. apply Hall, list_elem_of_In, nth_In, Hlt.
  - rewrite nth_overflow by exact Hge. discriminate.
Qed.

Lemma char_sextet_char (n : N) : (n < 64)%N -> char_sextet (sextet_char n) = Some n.
Proof.
  intros Hn.
  assert (Hall : forallb (fun k => match char_sextet (sextet_char (N.of_nat k)) with
                                   | Some m => N.eqb m (N.of_nat k)
                                   | None => false
                                   end) (seq 0 64) = true) by (vm_compute; reflexivity).
  rewrite forallb_forall in Hall.
  specialize (Hall (N.to_nat n)). rewrite N2Nat.id in Hall.
  assert (Hin : In (N.to_nat n) (seq 0 64)) by (apply in_seq; lia).
  specialize (Hall Hin). destruct (char_sextet (sextet_char n)) as [m|]; [|discriminate].
  apply N.eqb_eq in Hall. now subst.
Qed.

Lemma read_sextets_chars (l : list N) :
  Forall (fun x => x < 64)%N l ->
  read_sextets (map sextet_char l) = Some l.
Proof.
  induction 1 as [|x l Hx _ IH]; [reflexivity|].
  cbn [map read_sextets]. now rewrite (char_sextet_char _ Hx), IH.
Qed.

Lemma to_N_255 (l : bytes) : Forall (fun b => b < 256)%N (map Byte.to_N l).
Proof.
  induction l as [|b l IH]; simpl; constructor; [|exact IH].
  pose proof (Byte.to_N_bounded b). lia.
Qed.

Lemma occurs_of_list (c : ascii) (l : list ascii) :
  Forall (fun d => d <> c) l -> occurs c (string_of_list_ascii l) = false.
Proof.
  induction 1 as [|d l Hd _ IH]; simpl; [reflexivity|].
  apply Ascii.eqb_neq in Hd. now rewrite Hd, IH.
Qed.

#[global] Instance standin_base64_laws : Base64Laws.
Proof.
  split.
  - intros b. cbn [Decode Encode standin_base64]. unfold base64_Decode, base64_Encode.
    rewrite list_ascii_of_string_of_list_ascii,
      (read_sextets_chars _ (sextets_bound _ (to_N_255 b))),
      (octets_sextets _ (to_N_255 b)), map_to_byte_to_N.
    reflexivity.
  - intros b. cbn [Encode standin_base64]. unfold base64_Encode. apply occurs_of_list.
    apply Forall_forall. intros c Hc. apply list_elem_of_In, in_map_iff in Hc.
    destruct Hc as (n & <- & _). apply alphabet_no_dot.
Qed.

(** ** The MAC and signature stand-ins *)

Lemma spread_length (size : nat) (c : N) : length (spread size c) = size.
Proof. unfold spread. now rewrite length_map, length_seq. Qed.

#[global] Instance standin_crypto_laws : CryptoLaws.
Proof.
  split.
  - reflexivity.
  - intros h key msg. apply spread_length.
  - intros priv pub [Hpriv ->]. split; [exact Hpriv|].
    rewrite length_drop, Hpriv. reflexivity.
  - intros priv msg. apply spread_length.
  - intros priv pub msg [_ ->]. cbn [ed25519_verify ed25519_sign standin_crypto].
    unfold standin_verify, standin_sign. now rewrite ConstantTimeCompare_refl.
Qed.

(** ** The msgpack stand-in *)

#[global] Instance standin_codec : Codec RegisteredClaims :=
  {| new_claims := no_claims; stored := fun c => c |}.

Lemma to_N_to_byte (n : N) : (n < 256)%N -> Byte.to_N (to_byte n) = n.
Proof.
  intros Hn. unfold to_byte. destruct (Byte.of_N n) as [b|] eqn:E; simpl.
  - now apply Byte.to_of_N.
  - apply Byte.of_N_None_iff in E. lia.
Qed.

Lemma read_fixstr_fixstr (s : string) (b rest : bytes) :
  fixstr s = Some b -> read_fixstr (b ++ rest) = Some (s, rest).
Proof.
  unfold fixstr. destruct (Nat.ltb_spec (length (list_byte_of_string s)) 32) as [Hl|];
    [|discriminate].
  intros [= <-]. cbn [app read_fixstr]. rewrite to_N_to_byte by lia.
  replace ((160 <=? 160 + N.of_nat (length (list_byte_of_string s)))
           && (160 + N.of_nat (length (list_byte_of_string s)) <? 192))%N with true
    by (symmetry; apply andb_true_iff; split; [apply N.leb_le|apply N.ltb_lt]; lia).
  replace (N.to_nat (160 + N.of_nat (length (list_byte_of_string s)) - 160))
    with (length (list_byte_of_string s)) by lia.
  replace (length (list_byte_of_string s) <=? length (list_byte_of_string s ++ rest))%nat
    with true by (symmetry; apply Nat.leb_le; rewrite length_app; lia).
  now rewrite take_app_length, drop_app_length, string_of_list_byte_of_string.
Qed.

Lemma read_write_entries (entries : list (string * string)) :
  forall (b : bytes) (c : RegisteredClaims),
    write_entries entries = Some b ->
    read_entries (length entries) b c = set_fields entries c.
Proof.
  induction entries as [|[k v] entries IH]; intros b c; cbn [write_entries].
  - now intros [= <-].
  - destruct (fixstr k) as [kb|] eqn:Ek; [|discriminate].
    destruct (fixstr v) as [vb|] eqn:Ev; [|discriminate].
    destruct (write_entries entries) as [rb|] eqn:Er; [|discriminate].
    intros [= <-]. cbn [length read_entries set_fields].
    rewrite (read_fixstr_fixstr _ _ _ Ek), (read_fixstr_fixstr _ _ _ Ev).
    destruct (set_field c k v) as [c'|]; [|reflexivity]. now apply IH.
Qed.

#[global] Instance standin_msgpack_laws : MsgpackLaws (C := RegisteredClaims).
Proof.
  split. intros c body. cbn [Marshal Unmarshal standin_msgpack new_claims stored standin_codec].
  unfold msgpack_Marshal.
  destruct c as [kid exp iat nbf iss sub aud]. cbn [ExpirationTime IssuedAt NotBefore Audience
                                                     KeyID Issuer Subject].
  destruct (IsZero exp) eqn:Hexp; [|discriminate].
  destruct (IsZero iat) eqn:Hiat; [|discriminate].
  destruct (IsZero nbf) eqn:Hnbf; [|discriminate].
  destruct aud as [|x aud]; [|discriminate]. cbn [negb orb length Nat.eqb].
  apply Z.eqb_eq in Hexp, Hiat, Hnbf. subst exp iat nbf.
  set (entries := filter _ _).
  destruct (write_entries entries) as [b|] eqn:Hw; [|discriminate].
  intros [= <-]. unfold msgpack_Unmarshal.
  assert (Hlen : (length entries <= 3)%nat).
  { subst entries. etransitivity; [apply length_filter|]. reflexivity. }
  rewrite to_N_to_byte by lia.
  replace ((128 <=? 128 + N.of_nat (length entries))
           && (128 + N.of_nat (length entries) <? 144))%N with true
    by (symmetry; apply andb_true_iff; split; [apply N.leb_le|apply N.ltb_lt]; lia).
  replace (N.to_nat (128 + N.of_nat (length entries) - 128)) with (length entries) by lia.
  rewrite (read_write_entries _ _ _ Hw). subst entries. clear.
  destruct kid, iss, sub; reflexivity.
Qed.

(** ** The statements at concrete inputs *)

Example Marshal_alice : Encode (Marshal (Some alice)).1 = "gaNzdWKlYWxpY2U".
Proof. vm_compute. reflexivity. Qed.

Example GetAlgorithm_unregistered : GetAlgorithm builtin_registry "NONE" = None.
Proof. vm_compute. reflexivity. Qed.

Example GetAlgorithm_any_case :
  Name <$> GetAlgorithm builtin_registry "hs256" = Some "HS256".
Proof. vm_compute. reflexivity. Qed.

Example Authenticate_alice :
  Authenticate (New (hmacAlgo_Algorithm HS256) alice) (KeyBytes secret)
  = Ret (alice_token, None,
         {| Token_Algorithm := Some (hmacAlgo_Algorithm HS256);
            Token_Claims := Some alice;
            Token_Tag := (base64_Decode "u7y9vr_AwcLDxMXGx8jJysvMzc7P0NHS09TV1tfY2do").1 |}).
Proof. vm_compute. reflexivity. Qed.

(** C1 at a concrete input: HS256 with a byte key, and EdDSA with a key pair. *)
Lemma round_trip_witness :
  (exists wire tag parsed,
      Authenticate (New (hmacAlgo_Algorithm HS256) alice) (KeyBytes secret)
        = Ret (wire, None, {| Token_Algorithm := Some (hmacAlgo_Algorithm HS256);
                              Token_Claims := Some alice; Token_Tag := tag |})
      /\ ParseWithClaims (NewParser []) builtin_registry wire no_claims
           (Some (KeyfuncFrom (KeyBytes secret))) 0 = Ret parsed
      /\ p_err parsed = None /\ p_claims parsed = alice)
  /\ (exists wire tag parsed,
         Authenticate (New EdDSA alice) (KeyEd25519Private ed_private)
           = Ret (wire, None, {| Token_Algorithm := Some EdDSA;
                                 Token_Claims := Some alice; Token_Tag := tag |})
         /\ ParseWithClaims (NewParser []) builtin_registry wire no_claims
              (Some (KeyfuncFrom (KeyEd25519Public ed_public))) 0 = Ret parsed
         /\ p_err parsed = None /\ p_claims parsed = alice).
Proof.
  split.
  - destruct (round_trip (hmacAlgo_Algorithm HS256) (KeyBytes secret) (KeyBytes secret)
                alice (msgpack_Marshal (Some alice)).1 builtin_registry (NewParser []) 0)
      as (wire & tag & parsed & Ha & _ & _ & Hp & He & _ & _ & Hexact).
    + constructor. simpl. auto.
    + apply builtin_registry_resolves.
    + reflexivity.
    + apply default_parser_accepts. reflexivity.
    + exists wire, tag, parsed. split; [exact Ha|]. split; [exact Hp|].
      split; [exact He|]. exact (proj1 (Hexact eq_refl)).
  - destruct (round_trip EdDSA (KeyEd25519Private ed_private) (KeyEd25519Public ed_public)
                alice (msgpack_Marshal (Some alice)).1 builtin_registry (NewParser []) 0)
      as (wire & tag & parsed & Ha & _ & _ & Hp & He & _ & _ & Hexact).
    + constructor. split; reflexivity.
    + apply builtin_registry_resolves.
    + reflexivity.
    + apply default_parser_accepts. reflexivity.
    + exists wire, tag, parsed. split; [exact Ha|]. split; [exact Hp|].
      split; [exact He|]. exact (proj1 (Hexact eq_refl)).
Defined.

(** C2 at a concrete input. *)
Lemma unregistered_algorithm_witness :
  u_err (ParseUnverified builtin_registry unknown_alg_token no_claims)
    = Some (Sentinel ErrTokenUnverifiable)
  /\ u_claims (ParseUnverified builtin_registry unknown_alg_token no_claims) = no_claims
  /\ ParseWithClaims (NewParser []) builtin_registry unknown_alg_token no_claims
       (Some (KeyfuncFrom (KeyBytes secret))) 0
     = Ret {| p_token := Some {| Token_Algorithm := None; Token_Claims := None;
                                 Token_Tag := [] |};
              p_err := Some (Sentinel ErrTokenUnverifiable);
              p_claims := no_claims; p_parser := NewParser []; p_clock := 0 |}.
Proof.
  destruct (unregistered_algorithm_unverifiable builtin_registry unknown_alg_token
              no_claims (NewParser []) (Some (KeyfuncFrom (KeyBytes secret))) 0)
    as (He & _ & _ & Hc & Hp).
  - reflexivity.
  - reflexivity.
  - vm_compute. reflexivity.
  - auto.
Defined.

(** C2 as stated fails.  The three segments of [unknown_alg_token] are well
    formed (the claims segment decodes to [alice], the tag segment to three
    bytes) and its algorithm is not registered, yet the unverified parse does
    not decode the claims: the claims value passed in is unchanged, and the
    token returned holds no claims. *)
Lemma unregistered_algorithm_claims_not_decoded :
  let parts := Split unknown_alg_token "." in
  let u := ParseUnverified builtin_registry unknown_alg_token no_claims in
  (length parts = 3%nat
   /\ prefix_ok (nth 0 parts "") = true
   /\ Unmarshal (Decode (nth 1 parts "")).1 no_claims = (alice, None)
   /\ (Decode (nth 1 parts "")).2 = None
   /\ (Decode (nth 2 parts "")).2 = None
   /\ GetAlgorithm builtin_registry (alg_name (nth 0 parts "")) = None)
  /\ u_err u = Some (Sentinel ErrTokenUnverifiable)
  /\ u_claims u = no_claims
  /\ u_claims u <> alice
  /\ (Token_Claims <$> u_token u) = Some None.
Proof.
  vm_compute. repeat split; discriminate.
Qed.

(** C3 as stated fails.  Parsing a well-formed token without a key callback,
    or with a key that does not verify it, returns an error together with a
    token whose tag is the 32 decoded bytes.  And [Authenticate] on a token
    that already carries a tag, with claims the codec refuses to serialise,
    returns the error and leaves the tag in place. *)
Lemma failed_parse_keeps_tag :
  (exists parsed,
      ParseWithClaims (NewParser []) builtin_registry alice_token no_claims None 0
        = Ret parsed
      /\ is_err (p_err parsed) ErrTokenUnverifiable = true
      /\ (length <$> (Token_Tag <$> p_token parsed)) = Some 32%nat)
  /\ (exists parsed,
         ParseWithClaims (NewParser []) builtin_registry alice_token no_claims
           (Some (KeyfuncFrom (KeyBytes []))) 0 = Ret parsed
         /\ is_err (p_err parsed) ErrTokenTagInvalid = true
         /\ is_err (p_err parsed) ErrWrongTag = true
         /\ (length <$> (Token_Tag <$> p_token parsed)) = Some 32%nat)
  /\ (exists wire e t',
         Authenticate {| Token_Algorithm := Some (hmacAlgo_Algorithm HS256);
                         Token_Claims := Some unserialisable;
                         Token_Tag := [Byte.x01] |} (KeyBytes secret)
           = Ret (wire, Some e, t')
         /\ Token_Tag t' = [Byte.x01]).
Proof.
  split; [|split]; do 1 eexists.
  - split; [vm_compute; reflexivity|]. vm_compute. repeat split.
  - split; [vm_compute; reflexivity|]. vm_compute. repeat split.
  - do 2 eexists. split; [vm_compute; reflexivity|]. reflexivity.
Qed.

(** C4 at a concrete input. *)
Lemma Verify_distinguishes_errors_witness :
  hmacAlgo_Verify HS256 "BWT_HS256" [] KeyNil [] = Ret (Some (Sentinel ErrInvalidKeyType))
  /\ algoEd25519_Verify "BWT_HS256" [] KeyNil [] = Ret (Some (Sentinel ErrInvalidKeyType)).
Proof.
  destruct (Verify_distinguishes_errors "BWT_HS256" [] KeyNil []) as [Hh (_ & He & _)].
  destruct (Hh HS256) as (_ & Hk & _).
  split; [apply Hk|apply He]; discriminate.
Defined.

(** C5 as stated fails.  [unknown_alg_bad_claims] splits into three parts,
    its first part is "BWT", an underscore and the name NONE, and its claims
    segment is not base64url, so the claim's right-hand side holds; but NONE
    is not registered, and the parse returns ErrTokenUnverifiable, which is
    not the malformed error. *)
Lemma unregistered_algorithm_bad_claims_not_malformed :
  let parts := Split unknown_alg_bad_claims "." in
  let u := ParseUnverified builtin_registry unknown_alg_bad_claims no_claims in
  length parts = 3%nat
  /\ Cut (nth 0 parts "") "_" = ("BWT", "NONE", true)
  /\ claims_undecodable (nth 1 parts "") no_claims = true
  /\ is_err (u_err u) ErrTokenMalformed = false
  /\ u_err u = Some (Sentinel ErrTokenUnverifiable).
Proof. vm_compute. repeat split. Qed.

(** C7 at the least leeway.  Unary minus wraps on the least int64, so [PTime]
    is the current time plus the leeway: with now = 63840000000000000000 and
    exp = now + 1 the rule passes, although now - leeway < exp is false. *)
Theorem verifyExpiration_minInt64_leeway :
  let v : Validator RegisteredClaims :=
    NewValidator [WithLeeway minInt64; WithVerifyExpiration true] in
  let claims := {| KeyID := ""; ExpirationTime := 63840000000000000001; IssuedAt := 0;
                   NotBefore := 0; Issuer := ""; Subject := ""; Audience := [] |} in
  (Now v 0).1.1 = 63840000000000000000
  /\ (PTime v 0).1.1 = 63840000000000000000 + minInt64
  /\ ~ (63840000000000000000 - leeway v < GetExpirationTime claims)
  /\ (run (verifyExpiration true claims) v 0).1.1 = None
  /\ (Validate v claims 0).1.1 = None.
Proof.
  vm_compute. repeat split. intros F. discriminate F.
Qed.

(** C9 at a concrete input: a clock that always reads 1000. *)
Lemma clock_read_once_witness :
  let v : Validator RegisteredClaims := NewValidator [WithTimeFunc (fun _ => 1000)] in
  (forall calls, ((after calls (v, 0%nat)).2 <= 1)%nat)
  /\ (Now v 0).1.1 = 1000.
Proof.
  intros v.
  destruct (clock_read_once_when_nonzero v 0) as [Hcalls _].
  - intros k. reflexivity.
  - split; [exact Hcalls|reflexivity].
Defined.

(** C9 as stated fails.  A time function whose first reading is the zero
    time is consulted again by the next call, which returns another
    timestamp. *)
Lemma zero_reading_is_read_again :
  let f : TimeFunc := fun k => match k with O => 0 | S _ => 1000 end in
  let v : Validator RegisteredClaims := NewValidator [WithTimeFunc f] in
  let first := Now v 0 in
  let second := Now first.1.2 first.2 in
  first.1.1 = 0 /\ first.2 = 1%nat /\ second.1.1 = 1000 /\ second.2 = 2%nat.
Proof. vm_compute. repeat split. Qed.

(** ** The further properties at concrete inputs *)

#[global] Instance standin_sha3_inst : Sha3 := {| sha3_Sum256 := standin_sha3 |}.

(** X1 at a concrete input: a leeway of five nanoseconds, no expiration time,
    and the claim required. *)
Lemma verifyExpiration_spec_witness :
  minInt64 < leeway (NewValidator (C := RegisteredClaims) [WithLeeway 5]) <= maxInt64
  /\ (run (verifyExpiration true no_claims)
           (NewValidator (C := RegisteredClaims) [WithLeeway 5]) 0).1.1
     = errorIfRequired true ClaimsKeyExpirationTime.
Proof.
  assert (Hl : minInt64 < leeway (NewValidator (C := RegisteredClaims) [WithLeeway 5])
               <= maxInt64).
  { split; [reflexivity|discriminate]. }
  split; [exact Hl|].
  destruct (verifyExpiration_spec true no_claims _ 0 Hl) as [Habsent _].
  apply Habsent. reflexivity.
Defined.

(** X8 at a concrete input: the lower-case name of HS256. *)
Lemma builtin_registry_names_witness :
  only_ascii "hs256" = true
  /\ GetAlgorithm builtin_registry "hs256" = Some (hmacAlgo_Algorithm HS256).
Proof.
  split; [reflexivity|].
  destruct (builtin_registry_names "hs256" eq_refl) as [Hfound _].
  exact (Hfound eq_refl).
Defined.

(** X9 at a concrete input: the name HS256 cut after its second letter. *)
Lemma KeyID_concatenation_witness :
  KeyID_ "HS256" secret = KeyID_ "HS" (list_byte_of_string "256" ++ secret).
Proof. exact (proj1 (KeyID_concatenation "HS" "256" secret)). Defined.

(** X10 at a concrete input: a nil key. *)
Lemma Auth_distinguishes_errors_witness :
  hmacAlgo_Auth HS256 "BWT_HS256" [] KeyNil = Ret ([], Some (Sentinel ErrInvalidKeyType))
  /\ algoEd25519_Auth "BWT_EdDSA" [] KeyNil = Ret ([], Some (Sentinel ErrInvalidKeyType)).
Proof.
  split.
  - destruct (Auth_distinguishes_errors "BWT_HS256" [] KeyNil) as [Hh _].
    destruct (Hh HS256) as [Hk _]. apply Hk. discriminate.
  - destruct (Auth_distinguishes_errors "BWT_EdDSA" [] KeyNil) as [_ [Hk _]].
    apply Hk. discriminate.
Defined.

(** X11 at a concrete input: the MAC of a message under [secret]. *)
Lemma Verify_accepts_iff_witness :
  hmacAlgo_Verify HS256 "BWT_HS256" [] (KeyBytes secret)
    (HMAC SHA3_256 secret (list_byte_of_string "BWT_HS256" ++ [])) = Ret None.
Proof.
  destruct (Verify_accepts_iff "BWT_HS256" [] (KeyBytes secret)
              (HMAC SHA3_256 secret (list_byte_of_string "BWT_HS256" ++ []))) as [Hh _].
  apply (Hh HS256). exists secret. split; reflexivity.
Defined.

(** X12 at a concrete input: [alice_token] parsed with the key that
    authenticated it. *)
Lemma ParseWithClaims_success_sound_witness :
  exists parsed a tag,
    ParseWithClaims (NewParser []) builtin_registry alice_token no_claims
      (Some (KeyfuncFrom (KeyBytes secret))) 0 = Ret parsed
    /\ p_err parsed = None
    /\ GetAlgorithm builtin_registry (alg_name (nth 0 (Split alice_token ".") "")) = Some a
    /\ p_token parsed = Some {| Token_Algorithm := Some a;
                                Token_Claims := Some (p_claims parsed);
                                Token_Tag := tag |}.
Proof.
  assert (Hr : exists parsed,
             ParseWithClaims (NewParser []) builtin_registry alice_token no_claims
               (Some (KeyfuncFrom (KeyBytes secret))) 0 = Ret parsed
             /\ p_err parsed = None).
  { eexists. split; [vm_compute; reflexivity|reflexivity]. }
  destruct Hr as (parsed & Hr & He).
  destruct (ParseWithClaims_success_sound _ _ _ _ _ _ _ Hr He)
    as (a & body & tag & decoded & kf & key & _ & _ & Hg & _ & _ & _ & _ & _ & _
        & Ht & Hc & _).
  exists parsed, a, tag. rewrite Hc. auto.
Defined.

(** X13 at a concrete input: [alice_token] parsed without a key callback. *)
Lemma ParseWithClaims_error_kinds_witness :
  exists parsed e,
    ParseWithClaims (NewParser []) builtin_registry alice_token no_claims None 0
      = Ret parsed
    /\ p_err parsed = Some e
    /\ errors_Is e ErrTokenMalformed || errors_Is e ErrTokenUnverifiable
       || errors_Is e ErrTokenTagInvalid || errors_Is e ErrTokenInvalidClaims = true.
Proof.
  assert (Hr : exists parsed e,
             ParseWithClaims (NewParser []) builtin_registry alice_token no_claims None 0
               = Ret parsed
             /\ p_err parsed = Some e).
  { do 2 eexists. split; [vm_compute; reflexivity|reflexivity]. }
  destruct Hr as (parsed & e & Hr & He).
  destruct (ParseWithClaims_error_kinds _ _ _ _ _ _ _ _ Hr He) as [Hkind _].
  exists parsed, e. auto.
Defined.

(** X16 at a concrete input: [alice] authenticated with HS256. *)
Lemma Authenticate_wire_parses_witness :
  exists t',
    Authenticate (New (hmacAlgo_Algorithm HS256) alice) (KeyBytes secret)
      = Ret (alice_token, None, t')
    /\ Parts (u_raw (ParseUnverified builtin_registry alice_token no_claims))
       = ["BWT_HS256"; Encode (Marshal (Some alice)).1; Encode (Token_Tag t')].
Proof.
  eexists. split; [exact Authenticate_alice|].
  destruct (Authenticate_wire_parses _ alice no_claims _ _ _ builtin_registry
              Authenticate_alice) as (_ & _ & Hparts).
  destruct Hparts as [Hp _]; [reflexivity|discriminate|exact Hp].
Defined.

(** X19 at a concrete input: a token that already carries a tag, authenticated
    again with a nil key. *)
Lemma Authenticate_failure_witness :
  Authenticate {| Token_Algorithm := Some (hmacAlgo_Algorithm HS256);
                  Token_Claims := Some alice; Token_Tag := [Byte.x01] |} KeyNil
  = Ret ("", Some (Sentinel ErrInvalidKeyType),
         {| Token_Algorithm := Some (hmacAlgo_Algorithm HS256);
            Token_Claims := Some alice; Token_Tag := [] |}).
Proof.
  destruct (Authenticate_failure
              {| Token_Algorithm := Some (hmacAlgo_Algorithm HS256);
                 Token_Claims := Some alice; Token_Tag := [Byte.x01] |} KeyNil)
    as (_ & _ & _ & _ & Hreset).
  destruct (Hreset eq_refl) as [Hh _].
  apply (Hh HS256 eq_refl). discriminate.
Defined.

(** X20 at a concrete input: [alice_token], the parser without arguments and
    the key that authenticated the token. *)
Lemma ParseWithClaims_verified_witness :
  exists parsed,
    ParseWithClaims (NewParser []) builtin_registry alice_token no_claims
      (Some (KeyfuncFrom (KeyBytes secret))) 0 = Ret parsed
    /\ p_claims parsed = alice
    /\ p_clock parsed = 0%nat.
Proof.
  destruct (ParseWithClaims_verified builtin_registry alice_token no_claims (NewParser [])
              (KeyfuncFrom (KeyBytes secret)) 0 (hmacAlgo_Algorithm HS256)
              (msgpack_Marshal (Some alice)).1
              (base64_Decode "u7y9vr_AwcLDxMXGx8jJysvMzc7P0NHS09TV1tfY2do").1
              alice (KeyBytes secret))
    as (parsed & Hrun & _ & Hclaims & _ & _ & Hdefault).
  - vm_compute. reflexivity.
  - vm_compute. reflexivity.
  - vm_compute. reflexivity.
  - vm_compute. reflexivity.
  - vm_compute. reflexivity.
  - vm_compute. reflexivity.
  - reflexivity.
  - vm_compute. reflexivity.
  - exists parsed. split; [exact Hrun|]. split; [exact Hclaims|].
    exact (proj2 (Hdefault eq_refl)).
Defined.

(** X21 at a concrete input: a validator with the expiration rule whose clock
    read 1000 at its first use. *)
Lemma Validate_cached_witness :
  let v : Validator RegisteredClaims :=
    (Now (NewValidator [WithTimeFunc (fun _ => 1000); WithVerifyExpiration true]) 0).1.2 in
  IsZero (now v) = false
  /\ (Validate v alice 7).1.1 = (Validate v alice 0).1.1.
Proof.
  intros v. split; [reflexivity|].
  destruct (Validate_cached v alice 0 eq_refl) as (_ & Hsame & _).
  apply Hsame.
Defined.
